(** * Verification of [catalyst/utils/tensorboard.py]

    A shallow embedding of the TensorBoard events reader of
    [catalyst.utils.tensorboard]: the masked CRC32C checksum, the record
    framing of [EventsFileReader], the value decoders and the directory
    scan of [SummaryReader], followed by the properties of the
    specification that were checked against them. *)

From Stdlib Require Import ZArith Lia.
From Stdlib.Strings Require Import Byte.
From stdpp Require Import base list strings gmap sorting.

Local Open Scope Z_scope.

(** ** Bytes and fixed-width integers *)

(** A Python [bytes] object. *)
Abbreviation bytes := (list byte).

Definition byte_to_Z (b : byte) : Z := Z.of_N (Byte.to_N b).

Definition byte_of_Z (z : Z) : byte :=
  match Byte.of_N (Z.to_N (z mod 256)) with
  | Some b => b
  | None => x00
  end.

(** [_u32]: [x & 0xffffffff]. *)
Definition _u32 (x : Z) : Z := Z.land x 0xffffffff.

(** ** The [crc32c] package

    [crc32c.crc32] is an external dependency.  It is the CRC-32C of
    RFC 3720: Castagnoli polynomial in reflected form, register
    initialised to all ones, result complemented. *)
Module Crc32c.

Definition POLY : Z := 0x82F63B78.

(** One shift of the reflected register. *)
Definition shift1 (s : Z) : Z :=
  Z.lxor (Z.shiftr s 1) (if Z.testbit s 0 then POLY else 0).

Definition shift8 (s : Z) : Z :=
  shift1 (shift1 (shift1 (shift1 (shift1 (shift1 (shift1 (shift1 s))))))).

(** Feeding one byte to the register. *)
Definition update (s : Z) (b : byte) : Z :=
  shift8 (Z.lxor s (byte_to_Z b)).

Definition register (data : bytes) : Z :=
  fold_left update data 0xffffffff.

Definition crc32 (data : bytes) : Z :=
  Z.lxor (register data) 0xffffffff.

End Crc32c.

Definition crc32c := Crc32c.crc32.

(** ** [_masked_crc32c] *)

Definition _masked_crc32c (data : bytes) : Z :=
  let x := _u32 (crc32c data) in
  _u32 (Z.lor (Z.shiftr x 15) (_u32 (Z.shiftl x 17)) + 0xa282ead8).

Fixpoint ascii_bytes (s : string) : bytes :=
  match s with
  | EmptyString => []
  | String c s' => Ascii.byte_of_ascii c :: ascii_bytes s'
  end.

(** ** Exceptions *)

(** The three messages with which [EventReadingError] is raised. *)
Inductive reading_error : Type :=
| ShortRead                              (* 'The size of read data is less than requested size' *)
| InvalidChecksum (checksum crc32 : Z)   (* 'Invalid checksum. {checksum} != {crc32}' *)
| UnexpectedEnd.                         (* 'Unexpected end of events file' *)

Inductive exn : Type :=
| NotImplementedError                    (* 'Reading of a stream in non-blocking mode' *)
| EventReadingError (msg : reading_error)
| TypeError                              (* a built-in applied to [None] *)
| StructError                            (* [struct.error]: buffer of the wrong size *)
| DecodeError                            (* protobuf: the payload is not an [Event] *)
| ValueError                             (* 'Invalid type filter' *)
| KeyError (key : string)
| CvError.                               (* [cv2.error] *)

Inductive result (A : Type) : Type :=
| Ok (a : A)
| Raise (e : exn).
Arguments Ok {A} a.
Arguments Raise {A} e.

(** The error taxonomy of the specification and the exceptions of the
    code that stand for each of its members. *)
Inductive spec_error : Type :=
| ConfigurationError | UnsupportedStreamMode | TruncatedRecord
| ChecksumMismatch | MalformedEvent | ImageDecodeFailure.

Definition taxonomy (e : exn) : option spec_error :=
  match e with
  | ValueError => Some ConfigurationError
  | NotImplementedError => Some UnsupportedStreamMode
  | EventReadingError ShortRead => Some TruncatedRecord
  | EventReadingError UnexpectedEnd => Some TruncatedRecord
  | EventReadingError (InvalidChecksum _ _) => Some ChecksumMismatch
  | DecodeError => Some MalformedEvent
  | CvError => Some ImageDecodeFailure
  | TypeError | StructError | KeyError _ => None
  end.

(** ** Binary streams *)

(** The file-like object handed to [EventsFileReader]: a blocking
    stream with its unread bytes, whose [read(size)] returns fewer than
    [size] bytes only at the end of the stream, or a raw stream in
    non-blocking mode with no data available, whose [read] returns
    [None].  The sizes asked for are those of [struct.calcsize] and the
    unsigned length of a header, never negative. *)
Inductive BinaryIO : Type :=
| Blocking (pending : bytes)
| NonBlocking.

Definition pending_length (f : BinaryIO) : nat :=
  match f with
  | Blocking p => length p
  | NonBlocking => 0%nat
  end.

Definition file_read (size : Z) (f : BinaryIO) : option bytes * BinaryIO :=
  match f with
  | Blocking p => (Some (take (Z.to_nat size) p), Blocking (drop (Z.to_nat size) p))
  | NonBlocking => (None, NonBlocking)
  end.

(** Computations on the stream of a reader that may raise. *)
Definition M (A : Type) : Type := BinaryIO → result (A * BinaryIO).

Global Instance M_ret : MRet M := λ A a f, Ok (a, f).
Global Instance M_bind : MBind M := λ A B k m f,
  match m f with
  | Ok (a, f') => k a f'
  | Raise e => Raise e
  end.
Definition raise {A : Type} (e : exn) : M A := λ _, Raise e.
Definition lift {A : Type} (r : result A) : M A := λ f,
  match r with
  | Ok a => Ok (a, f)
  | Raise e => Raise e
  end.

(** ** [struct] *)

Definition len (data : bytes) : Z := Z.of_nat (length data).

(** Little-endian value of a byte string. *)
Fixpoint le_to_Z (data : bytes) : Z :=
  match data with
  | [] => 0
  | b :: rest => byte_to_Z b + 256 * le_to_Z rest
  end.

Fixpoint le_of_Z (n : nat) (z : Z) : bytes :=
  match n with
  | O => []
  | S n' => byte_of_Z z :: le_of_Z n' (z / 256)
  end.

(** [struct.calcsize] of the two formats in use.  The formats are in
    native byte order; the events files are little-endian and so are the
    machines they are read on. *)
Inductive fmt : Type := fmt_I | fmt_Q.

Definition calcsize (f : fmt) : Z :=
  match f with
  | fmt_I => 4
  | fmt_Q => 8
  end.

(** [struct.unpack(fmt, buffer)[0]]; the buffer may be [None]. *)
Definition unpack (f : fmt) (buffer : option bytes) : result Z :=
  match buffer with
  | None => Raise TypeError
  | Some data =>
      if len data =? calcsize f then Ok (le_to_Z data) else Raise StructError
  end.

Definition pack (f : fmt) (z : Z) : bytes := le_of_Z (Z.to_nat (calcsize f)) z.

(** ** [EventsFileReader] *)

Definition _read (size : Z) : M (option bytes) := λ f,
  match file_read size f with
  | (None, _) => Raise NotImplementedError
  | (Some data, f') =>
      if (0 <? len data) && (len data <? size) then
        Raise (EventReadingError ShortRead)
      else if len data =? 0 then Ok (None, f')
      else Ok (Some data, f')
  end.

Definition _read_and_check (size : Z) : M (option bytes) :=
  data ← _read size;
  match data with
  | None => mret None
  | Some data =>
      let checksum_size := calcsize fmt_I in
      raw ← _read checksum_size;
      checksum ← lift (unpack fmt_I raw);
      let checksum_computed := _masked_crc32c data in
      if bool_decide (checksum ≠ checksum_computed) then
        raise (EventReadingError (InvalidChecksum checksum checksum_computed))
      else mret (Some data)
  end.

(** How a generator ends: its body returns, or an exception leaves it. *)
Inductive outcome : Type :=
| Exhausted
| Raised (e : exn).

(** What a consumer that drains a generator observes: the items in the
    order of their [yield], then the end. *)
Record run (A : Type) : Type := Run { yielded : list A; fate : outcome }.
Arguments Run {A} yielded fate.
Arguments yielded {A} r.
Arguments fate {A} r.

Definition run_cons {A : Type} (a : A) (r : run A) : run A :=
  Run (a :: yielded r) (fate r).

Section EventsFileReader.
(** The protobuf message class [Event] and its [ParseFromString],
    which raises [DecodeError] on bytes that are no [Event]. *)
Context {Event : Type} (ParseFromString : bytes → option Event).

(** What is observed of one pass over an events file: the byte strings
    handed to [ParseFromString], the events of the [yield]s, the end. *)
Record reading : Type :=
  Reading { parsed : list bytes; events : run Event }.

Definition stop (o : outcome) : reading := Reading [] (Run [] o).

(** The body of [while True] in [__iter__]; [continue] is the next
    turn of the loop, which is out of fuel when it gives [None]. *)
Definition iter_body (continue : BinaryIO → option reading) (f : BinaryIO)
  : option reading :=
  let header_size := calcsize fmt_Q in
  match _read_and_check header_size f with
  | Raise e => Some (stop (Raised e))
  | Ok (None, _) => Some (stop Exhausted)
  | Ok (Some header, f1) =>
      match unpack fmt_Q (Some header) with
      | Raise e => Some (stop (Raised e))
      | Ok event_size =>
          match _read_and_check event_size f1 with
          | Raise e => Some (stop (Raised e))
          | Ok (None, _) => Some (stop (Raised (EventReadingError UnexpectedEnd)))
          | Ok (Some event_raw, f2) =>
              match ParseFromString event_raw with
              | None => Some (Reading [event_raw] (Run [] (Raised DecodeError)))
              | Some event =>
                  rest ← continue f2;
                  Some (Reading (event_raw :: parsed rest)
                                (run_cons event (events rest)))
              end
          end
      end
  end.

Fixpoint iter_loop (fuel : nat) (f : BinaryIO) : option reading :=
  match fuel with
  | O => None
  | S fuel' => iter_body (iter_loop fuel') f
  end.

(** [EventsFileReader(events_file).__iter__()], drained.  Every turn of
    the loop that goes on has consumed a header, so one more turn than
    there are unread bytes is enough ([iter_loop_total] below). *)
Definition EventsFileReader_iter (events_file : BinaryIO) : reading :=
  default (stop Exhausted)
          (iter_loop (S (pending_length events_file)) events_file).
End EventsFileReader.

(** ** Generators *)

(** One generator after another: the second runs only when the first
    is exhausted. *)
Definition run_seq {A : Type} (r1 r2 : run A) : run A :=
  match fate r1 with
  | Exhausted => Run (yielded r1 ++ yielded r2) (fate r2)
  | Raised _ => r1
  end.

(** ** Protobuf messages, decoders and [SummaryReader] *)

(** A directory entry; only what [glob] and [is_file] look at. *)
Inductive node : Type :=
| RegularFile (mtime : Z) (content : bytes)
| Directory
| Special.

Definition is_file (n : node) : bool :=
  match n with
  | RegularFile _ _ => true
  | _ => false
  end.

(** [open(file_path, 'rb')] on an entry for which [is_file()] holds. *)
Definition open_rb (n : node) : BinaryIO :=
  match n with
  | RegularFile _ content => Blocking content
  | _ => Blocking []
  end.

(** A file system: for the path of each directory, the entries directly
    inside it in the order in which the operating system enumerates
    them.  What lies inside a sub-directory is listed under its own
    path. *)
Definition FileSystem : Type := string → list (string * node).

(** [sorted] on the paths of one directory compares their names. *)
Definition path_le (x y : string * node) : Prop := String.le x.1 y.1.

Global Instance path_le_dec : RelDecision path_le.
Proof. intros x y. unfold path_le. apply _. Defined.

Section SummaryReader.
(** Python floats and numpy arrays are kept abstract. *)
Context {float ndarray : Type}.

(** The [oneof value] of [Summary.Value]. *)
Inductive value_oneof : Type :=
| simple_value (x : float)
| image (encoded_image_string : bytes)
| other_value
| no_value.

Record Value : Type :=
  { value_tag : string; value_value : value_oneof }.

(** [Event]; [event_summary] is [None] when [HasField('summary')] is
    false, and [event.summary.value] is then empty. *)
Record Event : Type :=
  { event_wall_time : float; event_step : Z; event_summary : option (list Value) }.

Definition summary_value (event : Event) : list Value :=
  default [] (event_summary event).

(** The objects a decoder returns. *)
Inductive pyobj : Type :=
| PyNone
| PyFloat (x : float)
| PyArray (a : ndarray).

Definition is_None (o : pyobj) : bool :=
  match o with
  | PyNone => true
  | _ => false
  end.

Record SummaryItem : Type :=
  { tag : string; step : Z; wall_time : float; value : pyobj; type : string }.

(** [cv2.imdecode(np.frombuffer(b, np.uint8), cv2.IMREAD_COLOR)]:
    an array, [None] when no image can be read from the buffer, or a
    [cv2.error]. *)
Context (imdecode : bytes → result (option ndarray)).

Context (ParseFromString : bytes → option Event).

Definition _get_scalar (v : Value) : result pyobj :=
  match value_value v with
  | simple_value x => Ok (PyFloat x)
  | _ => Ok PyNone
  end.

Definition _get_image (v : Value) : result pyobj :=
  match value_value v with
  | image encoded_image =>
      match imdecode encoded_image with
      | Ok (Some data) => Ok (PyArray data)
      | Ok None => Ok PyNone
      | Raise e => Raise e
      end
  | _ => Ok PyNone
  end.

(** The class attribute [_DECODERS], in the order of the dict. *)
Definition _DECODERS : list (string * (Value → result pyobj)) :=
  [("scalar", _get_scalar); ("image", _get_image)].

Definition keys {V : Type} (d : list (string * V)) : list string := d.*1.

Fixpoint getitem {V : Type} (d : list (string * V)) (k : string) : result V :=
  match d with
  | [] => Raise (KeyError k)
  | (k', v) :: d' => if bool_decide (k' = k) then Ok v else getitem d' k
  end.

Record SummaryReader : Type :=
  { _logdir : string;
    _tag_filter : option (gset string);
    _type_filter : option (gset string) }.

Definition _check_type_names (self : SummaryReader) : result unit :=
  match _type_filter self with
  | None => Ok tt
  | Some type_filter =>
      if negb (forallb (λ type_name, bool_decide (type_name ∈ keys _DECODERS))
                       (elements type_filter))
      then Raise ValueError
      else Ok tt
  end.

(** [SummaryReader(logdir, tag_filter, type_filter)]; the filters are
    iterables or [None].  No file system is in reach of it. *)
Definition SummaryReader_init (logdir : string)
    (tag_filter type_filter : option (list string)) : result SummaryReader :=
  let self :=
    {| _logdir := logdir;
       _tag_filter := list_to_set <$> tag_filter;
       _type_filter := list_to_set <$> type_filter |} in
  match _check_type_names self with
  | Ok _ => Ok self
  | Raise e => Raise e
  end.

(** The loop [for value_type in type_list] for one value, with its
    [break] and its [else]. *)
Fixpoint decode_value (type_list : list string) (event : Event) (v : Value)
  : run (option SummaryItem) :=
  match type_list with
  | [] => Run [None] Exhausted
  | value_type :: type_list' =>
      match getitem _DECODERS value_type with
      | Raise e => Run [] (Raised e)
      | Ok decoder =>
          match decoder v with
          | Raise e => Run [] (Raised e)
          | Ok data =>
              if negb (is_None data) then
                Run [Some {| tag := value_tag v;
                             step := event_step event;
                             wall_time := event_wall_time event;
                             value := data;
                             type := value_type |}] Exhausted
              else decode_value type_list' event v
          end
      end
  end.

(** The loop [for value in event.summary.value]. *)
Fixpoint decode_values (type_list : list string) (event : Event)
    (values : list Value) : run (option SummaryItem) :=
  match values with
  | [] => Run [] Exhausted
  | v :: values' =>
      run_seq (decode_value type_list event v)
              (decode_values type_list event values')
  end.

(** The body of [for event in events]. *)
Definition decode_event (type_list : list string) (event : Event)
  : run (option SummaryItem) :=
  run_seq (if negb (bool_decide (is_Some (event_summary event)))
           then Run [None] Exhausted else Run [] Exhausted)
          (decode_values type_list event (summary_value event)).

(** The loop [for event in events] over what the events generator
    yields; when that generator ends, so does this one. *)
Fixpoint decode_each (type_list : list string) (events : list Event)
    (end_of_events : outcome) : run (option SummaryItem) :=
  match events with
  | [] => Run [] end_of_events
  | event :: events' =>
      run_seq (decode_event type_list event)
              (decode_each type_list events' end_of_events)
  end.

(** [_decode_events]; a type filter is a set, iterated in an order of
    its own, for which [elements] stands. *)
Definition _decode_events (self : SummaryReader) (events : run Event)
  : run (option SummaryItem) :=
  let type_list :=
    match _type_filter self with
    | Some type_filter => elements type_filter
    | None => keys _DECODERS
    end in
  decode_each type_list (yielded events) (fate events).

Definition _check_tag (self : SummaryReader) (tag : string) : bool :=
  match _tag_filter self with
  | None => true
  | Some tag_filter => bool_decide (tag ∈ tag_filter)
  end.

Definition _check_type (self : SummaryReader) (event_type : string) : bool :=
  match _type_filter self with
  | None => true
  | Some type_filter => bool_decide (event_type ∈ type_filter)
  end.

(** The generator expression of [__iter__]. *)
Definition keep (self : SummaryReader) (item : option SummaryItem) : bool :=
  match item with
  | None => false
  | Some item => _check_tag self (tag item) && _check_type self (type item)
  end.

Definition items_of_file (self : SummaryReader) (f : BinaryIO) : run SummaryItem :=
  let reader := EventsFileReader_iter ParseFromString f in
  let decoded := _decode_events self (events reader) in
  Run (omap id (filter (λ item, keep self item) (yielded decoded))) (fate decoded).

Definition log_files (self : SummaryReader) (fs : FileSystem) : list (string * node) :=
  merge_sort path_le (filter (λ f, is_file f.2) (fs (_logdir self))).

(** The loop [for file_path in log_files]. *)
Fixpoint scan (self : SummaryReader) (files : list (string * node)) : run SummaryItem :=
  match files with
  | [] => Run [] Exhausted
  | file_path :: files' =>
      run_seq (items_of_file self (open_rb file_path.2)) (scan self files')
  end.

Definition SummaryReader_iter (self : SummaryReader) (fs : FileSystem) : run SummaryItem :=
  scan self (log_files self fs).
End SummaryReader.

(** ** Notions used to state the properties *)

(** The values of an unsigned 32-bit integer. *)
Definition u32 (x : Z) : Prop := 0 ≤ x < 2 ^ 32.

(** The on-disk format of one record: the length of the payload on 8
    bytes, the masked checksum of these 8 bytes, the payload, the masked
    checksum of the payload. *)
Definition record_header (payload : bytes) : bytes :=
  let length_bytes := pack fmt_Q (len payload) in
  length_bytes ++ pack fmt_I (_masked_crc32c length_bytes).

Definition record (payload : bytes) : bytes :=
  record_header payload ++ payload ++ pack fmt_I (_masked_crc32c payload).

(** Bit [k] of a byte inverted, and bit [i] of a byte string inverted
    (bit [i mod 8] of the byte at index [i / 8]). *)
Definition flip_bit (k : nat) (b : byte) : byte :=
  byte_of_Z (Z.lxor (byte_to_Z b) (2 ^ Z.of_nat k)).

Definition flip_payload_bit (i : nat) (payload : bytes) : bytes :=
  alter (flip_bit (i mod 8)) (i / 8)%nat payload.

(** A record whose stored payload had bit [i] inverted after it was
    written. *)
Definition corrupted_record (i : nat) (payload : bytes) : bytes :=
  record_header payload ++ flip_payload_bit i payload
    ++ pack fmt_I (_masked_crc32c payload).

(** The rotation inside [_masked_crc32c]. *)
Definition rot (x : Z) : Z := Z.lor (Z.shiftr x 15) (_u32 (Z.shiftl x 17)).

(** The bytes of a file to which the given payloads were appended, one
    record each. *)
Definition records (payloads : list bytes) : bytes :=
  mjoin (record <$> payloads).

(** A type name that was tried on a value in vain: its decoder returned
    [None]. *)
Definition passed_over {float ndarray : Type}
    (imdecode : bytes → result (option ndarray))
    (v : @Value float) (value_type : string) : Prop :=
  ∃ decoder,
    getitem (_DECODERS imdecode) value_type = Ok decoder ∧ decoder v = Ok PyNone.

(** A directory entry without its modification time. *)
Definition forget_mtime (f : string * node) : string * node :=
  (f.1, match f.2 with
        | RegularFile _ content => RegularFile 0 content
        | n => n
        end).

(** ** Sample data *)

(** A codec that reads an image from no buffer at all. *)
Definition no_codec : bytes → result (option bytes) := λ _, Ok None.

(** An event with one value, an encoded image of the single byte 0. *)
Definition image_event : @Event Z :=
  {| event_wall_time := 0; event_step := 1;
     event_summary := Some [{| value_tag := "img"; value_value := image [x00] |}] |}.

(** A reader without filters on the directory "logs". *)
Definition plain_reader : SummaryReader :=
  {| _logdir := "logs"; _tag_filter := None; _type_filter := None |}.

(** The directory "logs" holds one file, of one record. *)
Definition one_file : FileSystem := λ dir,
  if bool_decide (dir = "logs") then [("events", RegularFile 0 (record [x2a]))]
  else [].

(** The directory "logs" as two enumerations may show it: two files and
    a sub-directory, in different orders and with different times. *)
Definition two_files : FileSystem := λ dir,
  if bool_decide (dir = "logs") then
    [("b", RegularFile 10 (record [x62])); ("sub", Directory);
     ("a", RegularFile 20 (record [x61]))]
  else if bool_decide (dir = "logs/sub") then
    [("c", RegularFile 5 (record [x63]))]
  else [].

Definition two_files_later : FileSystem := λ dir,
  if bool_decide (dir = "logs") then
    [("a", RegularFile 7 (record [x61])); ("b", RegularFile 3 (record [x62]));
     ("sub", Directory)]
  else [].

Fixpoint text (payload : bytes) : string :=
  match payload with
  | [] => EmptyString
  | b :: payload' => String (Ascii.ascii_of_byte b) (text payload')
  end.

(** A parser that makes of a payload an event with one scalar value,
    tagged with the payload read as text. *)
Definition tag_event (payload : bytes) : option (@Event Z) :=
  Some {| event_wall_time := 0;
          event_step := le_to_Z payload;
          event_summary :=
            Some [{| value_tag := text payload;
                     value_value := simple_value 1 |}] |}.


(** What the loop over the type names comes to for one value, when the
    names are names of decoders: the kind of the value and the presence
    of its decoder among the names decide, not the order of the names. *)
Definition decoded {float ndarray : Type}
    (imdecode : bytes → result (option ndarray))
    (type_list : list string) (event : @Event float) (v : Value)
  : run (option (@SummaryItem float ndarray)) :=
  let item data value_type :=
    {| tag := value_tag v; step := event_step event;
       wall_time := event_wall_time event; value := data; type := value_type |} in
  match value_value v with
  | simple_value x =>
      if bool_decide ("scalar" ∈ type_list)
      then Run [Some (item (PyFloat x) "scalar")] Exhausted
      else Run [None] Exhausted
  | image encoded_image =>
      if bool_decide ("image" ∈ type_list) then
        match imdecode encoded_image with
        | Ok (Some data) => Run [Some (item (PyArray data) "image")] Exhausted
        | Ok None => Run [None] Exhausted
        | Raise e => Run [] (Raised e)
        end
      else Run [None] Exhausted
  | _ => Run [None] Exhausted
  end.

(** The reader with its tag filter taken away. *)
Definition without_tag_filter (self : SummaryReader) : SummaryReader :=
  {| _logdir := _logdir self; _tag_filter := None;
     _type_filter := _type_filter self |}.

(** The type names that a reader goes through for each value. *)
Definition type_list_of {float ndarray : Type}
    (imdecode : bytes → result (option ndarray)) (self : SummaryReader)
  : list string :=
  match _type_filter self with
  | Some type_filter => elements type_filter
  | None => keys (_DECODERS (float:=float) imdecode)
  end.

(** * Properties *)

(** ** Reference values of the CRC-32C *)

Example crc32c_check : crc32c (ascii_bytes "123456789") = 0xE3069283.
Proof. vm_compute. reflexivity. Qed.

Example crc32c_empty : crc32c [] = 0.
Proof. reflexivity. Qed.

Example crc32c_a : crc32c (ascii_bytes "a") = 0xC1D04330.
Proof. vm_compute. reflexivity. Qed.

Example crc32c_abc : crc32c (ascii_bytes "abc") = 0x364B3FB7.
Proof. vm_compute. reflexivity. Qed.

(** ** Unsigned 32-bit values and bytes *)

Lemma _u32_mod x : _u32 x = x mod 2 ^ 32.
Proof. unfold _u32. change 0xffffffff with (Z.ones 32). apply Z.land_ones. lia. Qed.

Lemma _u32_range x : u32 (_u32 x).
Proof. rewrite _u32_mod. unfold u32. apply Z.mod_pos_bound. lia. Qed.

Lemma _u32_id x : u32 x → _u32 x = x.
Proof. intros H. rewrite _u32_mod. apply Z.mod_small. exact H. Qed.

Lemma u32_testbit x : u32 x → ∀ n, 32 ≤ n → Z.testbit x n = false.
Proof.
  intros Hx n Hn. rewrite <- (_u32_id x Hx). unfold _u32.
  rewrite Z.land_spec. change 0xffffffff with (Z.ones 32).
  rewrite Z.ones_spec_high by lia. apply andb_false_r.
Qed.

Lemma u32_lxor a b : u32 a → u32 b → u32 (Z.lxor a b).
Proof.
  intros Ha Hb.
  assert (E : _u32 (Z.lxor a b) = Z.lxor a b); [|rewrite <- E; apply _u32_range].
  unfold _u32. change 0xffffffff with (Z.ones 32).
  apply Z.bits_inj'. intros n Hn. rewrite Z.land_spec, Z.lxor_spec.
  destruct (decide (n < 32)).
  - rewrite Z.ones_spec_low by lia. apply andb_true_r.
  - rewrite !u32_testbit by (assumption || lia). reflexivity.
Qed.

Lemma u32_shiftr a n : 0 ≤ n → u32 a → u32 (Z.shiftr a n).
Proof.
  intros Hn [Ha1 Ha2]. unfold u32. rewrite Z.shiftr_div_pow2 by lia.
  split; [apply Z.div_pos; lia|].
  apply Z.le_lt_trans with a; [|lia].
  apply Z.div_le_upper_bound; [lia|]. 
  assert (1 ≤ 2 ^ n) by (apply (Z.pow_le_mono_r 2 0 n); lia). nia.
Qed.

Lemma lxor_inj_r a b c : Z.lxor a c = Z.lxor b c → a = b.
Proof.
  intros E. apply (f_equal (λ x, Z.lxor x c)) in E.
  rewrite !Z.lxor_assoc, !Z.lxor_nilpotent, !Z.lxor_0_r in E. exact E.
Qed.

Lemma lxor_inj_l a b c : Z.lxor c a = Z.lxor c b → a = b.
Proof. rewrite !(Z.lxor_comm c). apply lxor_inj_r. Qed.

Lemma byte_to_Z_range b : 0 ≤ byte_to_Z b < 256.
Proof. unfold byte_to_Z. pose proof (Byte.to_N_bounded b). lia. Qed.

Lemma byte_to_Z_inj b1 b2 : byte_to_Z b1 = byte_to_Z b2 → b1 = b2.
Proof.
  unfold byte_to_Z. intros H. apply N2Z.inj in H.
  apply (f_equal Byte.of_N) in H. rewrite !Byte.of_to_N in H. congruence.
Qed.

Lemma byte_of_to_Z b : byte_of_Z (byte_to_Z b) = b.
Proof.
  unfold byte_of_Z. rewrite Z.mod_small by apply byte_to_Z_range.
  unfold byte_to_Z. rewrite N2Z.id, Byte.of_to_N. reflexivity.
Qed.

Lemma byte_to_of_Z z : byte_to_Z (byte_of_Z z) = z mod 256.
Proof.
  unfold byte_of_Z, byte_to_Z.
  assert (H : 0 ≤ z mod 256 < 256) by (apply Z.mod_pos_bound; lia).
  destruct (Byte.of_N (Z.to_N (z mod 256))) as [b|] eqn:E.
  - apply Byte.to_of_N in E. rewrite E. lia.
  - apply Byte.of_N_None_iff in E. lia.
Qed.

Module Crc32cFacts.
Import Crc32c.

Lemma u32_POLY : u32 POLY.
Proof. unfold u32, POLY. lia. Qed.

Lemma shift1_range s : u32 s → u32 (shift1 s).
Proof.
  intros Hs. unfold shift1. apply u32_lxor.
  - apply u32_shiftr; [lia | exact Hs].
  - destruct (Z.testbit s 0); [apply u32_POLY | unfold u32; lia].
Qed.

(** The top bit of the shifted register tells whether the polynomial
    was added, that is, the bit that was shifted out. *)
Lemma shift1_top s : u32 s → Z.testbit (shift1 s) 31 = Z.testbit s 0.
Proof.
  intros Hs. unfold shift1. rewrite Z.lxor_spec, Z.shiftr_spec by lia.
  rewrite (u32_testbit s Hs) by lia.
  destruct (Z.testbit s 0); reflexivity.
Qed.

Lemma shift1_inj a b : u32 a → u32 b → shift1 a = shift1 b → a = b.
Proof.
  intros Ha Hb E.
  assert (E0 : Z.testbit a 0 = Z.testbit b 0).
  { rewrite <- (shift1_top a Ha), <- (shift1_top b Hb), E. reflexivity. }
  unfold shift1 in E. rewrite E0 in E. apply lxor_inj_r in E.
  apply Z.bits_inj'. intros n Hn.
  destruct (decide (n = 0)) as [-> | Hne]; [exact E0|].
  replace n with (n - 1 + 1) by lia.
  rewrite <- !Z.shiftr_spec by lia. rewrite E. reflexivity.
Qed.

Lemma shift8_range s : u32 s → u32 (shift8 s).
Proof. intros Hs. unfold shift8. do 8 apply shift1_range. exact Hs. Qed.

Lemma shift8_inj a b : u32 a → u32 b → shift8 a = shift8 b → a = b.
Proof.
  intros Ha Hb. unfold shift8. intros E.
  repeat (apply shift1_inj in E; [| repeat apply shift1_range; assumption ..]).
  exact E.
Qed.

Lemma u32_byte b : u32 (byte_to_Z b).
Proof. pose proof (byte_to_Z_range b). unfold u32. lia. Qed.

Lemma update_range s b : u32 s → u32 (update s b).
Proof. intros Hs. apply shift8_range, u32_lxor; [exact Hs | apply u32_byte]. Qed.

Lemma update_inj_state s1 s2 b :
  u32 s1 → u32 s2 → update s1 b = update s2 b → s1 = s2.
Proof.
  intros H1 H2 E. apply shift8_inj in E; try (apply u32_lxor; auto using u32_byte).
  apply lxor_inj_r in E. exact E.
Qed.

Lemma update_inj_byte s b1 b2 :
  u32 s → update s b1 = update s b2 → b1 = b2.
Proof.
  intros Hs E. apply shift8_inj in E; try (apply u32_lxor; auto using u32_byte).
  apply lxor_inj_l in E. apply byte_to_Z_inj. exact E.
Qed.

Lemma fold_update_range data s : u32 s → u32 (fold_left update data s).
Proof.
  revert s. induction data as [|b data IH]; intros s Hs; simpl; [exact Hs|].
  apply IH, update_range, Hs.
Qed.

Lemma fold_update_inj data s1 s2 :
  u32 s1 → u32 s2 →
  fold_left update data s1 = fold_left update data s2 → s1 = s2.
Proof.
  revert s1 s2. induction data as [|b data IH]; intros s1 s2 H1 H2 E; simpl in E.
  - exact E.
  - apply IH in E; auto using update_range.
    eapply update_inj_state; eauto.
Qed.

Lemma register_range data : u32 (register data).
Proof. apply fold_update_range. unfold u32. lia. Qed.

Lemma crc32_range data : u32 (crc32 data).
Proof. apply u32_lxor; [apply register_range | unfold u32; lia]. Qed.

(** Two byte strings that differ in exactly one byte have different
    checksums. *)
Lemma crc32_one_byte pre b1 b2 post :
  crc32 (pre ++ b1 :: post) = crc32 (pre ++ b2 :: post) → b1 = b2.
Proof.
  unfold crc32, register. intros E. apply lxor_inj_r in E.
  rewrite !fold_left_app in E. simpl in E.
  apply fold_update_inj in E;
    [| apply update_range, fold_update_range; unfold u32; lia ..].
  eapply update_inj_byte; [|exact E].
  apply fold_update_range. unfold u32. lia.
Qed.
End Crc32cFacts.

(** ** The mask of [_masked_crc32c] *)

Lemma rot_testbit x n : u32 x → 0 ≤ n →
  Z.testbit (rot x) n =
    if decide (n < 17) then Z.testbit x (n + 15)
    else if decide (n < 32) then Z.testbit x (n - 17) else false.
Proof.
  intros Hx Hn. unfold rot, _u32. change 0xffffffff with (Z.ones 32).
  rewrite Z.lor_spec, Z.land_spec, Z.shiftr_spec, Z.shiftl_spec by lia.
  destruct (decide (n < 17)).
  - rewrite (Z.testbit_neg_r x (n - 17)) by lia. simpl. apply orb_false_r.
  - rewrite (u32_testbit x Hx (n + 15)) by lia. simpl.
    destruct (decide (n < 32)).
    + rewrite Z.ones_spec_low by lia. apply andb_true_r.
    + rewrite Z.ones_spec_high by lia. apply andb_false_r.
Qed.

Lemma rot_nonneg x : u32 x → 0 ≤ rot x.
Proof.
  intros [Hx _]. unfold rot. apply Z.lor_nonneg. split.
  - apply Z.shiftr_nonneg. exact Hx.
  - apply _u32_range.
Qed.

Lemma rot_range x : u32 x → u32 (rot x).
Proof.
  intros Hx. assert (E : _u32 (rot x) = rot x); [|rewrite <- E; apply _u32_range].
  unfold _u32. change 0xffffffff with (Z.ones 32).
  apply Z.bits_inj'. intros n Hn. rewrite Z.land_spec.
  destruct (decide (n < 32)).
  - rewrite Z.ones_spec_low by lia. apply andb_true_r.
  - rewrite Z.ones_spec_high by lia. rewrite rot_testbit by assumption.
    repeat case_decide; try lia; try reflexivity.
Qed.

Lemma rot_inj x y : u32 x → u32 y → rot x = rot y → x = y.
Proof.
  intros Hx Hy E. apply Z.bits_inj'. intros n Hn.
  destruct (decide (n < 15)).
  - pose proof (rot_testbit x (n + 17) Hx ltac:(lia)) as Ex.
    pose proof (rot_testbit y (n + 17) Hy ltac:(lia)) as Ey.
    repeat case_decide; try lia.
    replace (n + 17 - 17) with n in * by lia. congruence.
  - destruct (decide (n < 32)).
    + pose proof (rot_testbit x (n - 15) Hx ltac:(lia)) as Ex.
      pose proof (rot_testbit y (n - 15) Hy ltac:(lia)) as Ey.
      repeat case_decide; try lia.
      replace (n - 15 + 15) with n in * by lia. congruence.
    + rewrite !u32_testbit by (assumption || lia). reflexivity.
Qed.

Lemma add_mod_inj a b c : u32 a → u32 b →
  _u32 (a + c) = _u32 (b + c) → a = b.
Proof.
  unfold u32. rewrite !_u32_mod. intros Ha Hb E.
  Z.to_euclidean_division_equations. lia.
Qed.

Lemma _masked_crc32c_rot data :
  _masked_crc32c data = _u32 (rot (crc32c data) + 0xa282ead8).
Proof.
  unfold _masked_crc32c, rot.
  rewrite (_u32_id (crc32c data)) by apply Crc32cFacts.crc32_range. reflexivity.
Qed.

Lemma _masked_crc32c_range data : u32 (_masked_crc32c data).
Proof. apply _u32_range. Qed.

Lemma _masked_crc32c_crc data1 data2 :
  _masked_crc32c data1 = _masked_crc32c data2 → crc32c data1 = crc32c data2.
Proof.
  rewrite !_masked_crc32c_rot. intros E.
  apply add_mod_inj in E; [| apply rot_range, Crc32cFacts.crc32_range ..].
  apply rot_inj in E; [exact E | apply Crc32cFacts.crc32_range ..].
Qed.

(** In [rot], the mask on the left shift may as well be applied to the
    whole disjunction. *)
Lemma rot_mod x : u32 x →
  rot x = Z.lor (Z.shiftr x 15) (Z.shiftl x 17) mod 2 ^ 32.
Proof.
  intros Hx. rewrite <- _u32_mod. unfold rot, _u32.
  rewrite Z.land_lor_distr_l. f_equal.
  symmetry. apply (_u32_id (Z.shiftr x 15)). apply u32_shiftr; [lia | exact Hx].
Qed.


(** ** [struct.pack] and [struct.unpack] *)

Lemma length_le_of_Z n z : length (le_of_Z n z) = n.
Proof. revert z. induction n as [|n IH]; intros z; simpl; [|rewrite IH]; reflexivity. Qed.

Lemma le_to_of_Z n z : le_to_Z (le_of_Z n z) = z mod 256 ^ Z.of_nat n.
Proof.
  revert z. induction n as [|n IH]; intros z.
  - simpl. rewrite Z.mod_1_r. reflexivity.
  - cbn [le_of_Z le_to_Z]. rewrite IH, byte_to_of_Z.
    rewrite Nat2Z.inj_succ, Z.pow_succ_r by lia.
    rewrite Z.rem_mul_r by lia. reflexivity.
Qed.

Lemma len_pack f z : len (pack f z) = calcsize f.
Proof. unfold len, pack. rewrite length_le_of_Z. destruct f; reflexivity. Qed.

Lemma pack_nonempty f z : pack f z ≠ [].
Proof. destruct f; discriminate. Qed.

Lemma unpack_pack f z :
  0 ≤ z < 256 ^ calcsize f → unpack f (Some (pack f z)) = Ok z.
Proof.
  intros Hz. unfold unpack. rewrite len_pack, Z.eqb_refl.
  unfold pack. rewrite le_to_of_Z, Z2Nat.id by (destruct f; simpl; lia).
  rewrite Z.mod_small by exact Hz. reflexivity.
Qed.

Lemma unpack_I_pack z : u32 z → unpack fmt_I (Some (pack fmt_I z)) = Ok z.
Proof. intros Hz. apply unpack_pack. exact Hz. Qed.

(** ** [_read] and [_read_and_check] on a blocking stream *)

Lemma len_nonempty (data : bytes) : data ≠ [] → 0 < len data.
Proof. destruct data; [congruence | unfold len; simpl; lia]. Qed.

Lemma _read_exact size data rest :
  data ≠ [] → len data = size →
  _read size (Blocking (data ++ rest)) = Ok (Some data, Blocking rest).
Proof.
  intros Hne Hlen. unfold _read, file_read.
  assert (Hn : Z.to_nat size = length data) by (unfold len in Hlen; lia).
  rewrite Hn, take_app_length, drop_app_length.
  pose proof (len_nonempty data Hne).
  replace (len data <? size) with false by (symmetry; apply Z.ltb_ge; lia).
  rewrite andb_false_r.
  replace (len data =? 0) with false by (symmetry; apply Z.eqb_neq; lia).
  reflexivity.
Qed.

Lemma _read_eof size : _read size (Blocking []) = Ok (None, Blocking []).
Proof. unfold _read, file_read. rewrite take_nil, drop_nil. reflexivity. Qed.

Lemma _read_short size (p : bytes) :
  p ≠ [] → len p < size →
  _read size (Blocking p) = Raise (EventReadingError ShortRead).
Proof.
  intros Hne Hlt. unfold _read, file_read.
  rewrite take_ge by (unfold len in Hlt; lia).
  pose proof (len_nonempty p Hne).
  replace (0 <? len p) with true by (symmetry; apply Z.ltb_lt; lia).
  replace (len p <? size) with true by (symmetry; apply Z.ltb_lt; lia).
  reflexivity.
Qed.

(** A read of no bytes cannot be told from the end of the stream. *)
Lemma _read_zero (p : bytes) : _read 0 (Blocking p) = Ok (None, Blocking p).
Proof. reflexivity. Qed.

Lemma _read_Some size f data f' :
  _read size f = Ok (Some data, f') →
  data ≠ [] ∧ ∃ rest, f = Blocking (data ++ rest) ∧ f' = Blocking rest.
Proof.
  unfold _read, file_read. destruct f as [p|]; [|discriminate].
  destruct (_ && _); [discriminate|].
  destruct (len (take (Z.to_nat size) p) =? 0) eqn:E; [discriminate|].
  intros [= <- <-]. split.
  - intros Hnil. rewrite Hnil in E. discriminate.
  - exists (drop (Z.to_nat size) p). rewrite take_drop. auto.
Qed.

Lemma _read_pending size f r f' :
  _read size f = Ok (r, f') → (pending_length f' ≤ pending_length f)%nat.
Proof.
  unfold _read, file_read. destruct f as [p|]; [|discriminate].
  destruct (_ && _); [discriminate|].
  destruct (_ =? 0); intros [= <- <-]; simpl; rewrite length_drop; lia.
Qed.


Lemma _read_and_check_short size (p : bytes) :
  p ≠ [] → len p < size →
  _read_and_check size (Blocking p) = Raise (EventReadingError ShortRead).
Proof.
  intros. unfold _read_and_check, mbind, M_bind. rewrite _read_short by assumption.
  reflexivity.
Qed.

Lemma _read_and_check_zero (p : bytes) :
  _read_and_check 0 (Blocking p) = Ok (None, Blocking p).
Proof. reflexivity. Qed.

(** The stored checksum [c] follows the data. *)
Lemma _read_and_check_stored data c rest :
  data ≠ [] → u32 c →
  _read_and_check (len data) (Blocking (data ++ pack fmt_I c ++ rest)) =
    if bool_decide (c ≠ _masked_crc32c data)
    then Raise (EventReadingError (InvalidChecksum c (_masked_crc32c data)))
    else Ok (Some data, Blocking rest).
Proof.
  intros Hne Hc. unfold _read_and_check, mbind, M_bind.
  rewrite _read_exact by auto.
  rewrite (_read_exact (calcsize fmt_I)) by (auto using pack_nonempty, len_pack).
  unfold lift. rewrite unpack_I_pack by exact Hc.
  destruct (bool_decide _); reflexivity.
Qed.

Lemma _read_and_check_ok data rest :
  data ≠ [] →
  _read_and_check (len data)
      (Blocking (data ++ pack fmt_I (_masked_crc32c data) ++ rest)) =
    Ok (Some data, Blocking rest).
Proof.
  intros Hne. rewrite _read_and_check_stored by auto using _masked_crc32c_range.
  rewrite bool_decide_eq_false_2 by auto. reflexivity.
Qed.

(** The stream ends where the checksum of the data is due. *)
Lemma _read_and_check_no_checksum data :
  data ≠ [] → _read_and_check (len data) (Blocking data) = Raise TypeError.
Proof.
  intros Hne. unfold _read_and_check, mbind, M_bind.
  rewrite <- (app_nil_r data) at 2. rewrite _read_exact by auto.
  rewrite _read_eof. reflexivity.
Qed.

Lemma _read_and_check_pending size f r f' :
  _read_and_check size f = Ok (r, f') → (pending_length f' ≤ pending_length f)%nat.
Proof.
  unfold _read_and_check, mbind, M_bind.
  destruct (_read size f) as [[[data|] f1]|] eqn:E1; [| |discriminate].
  - destruct (_read (calcsize fmt_I) f1) as [[raw f2]|] eqn:E2; [|discriminate].
    unfold lift. destruct (unpack fmt_I raw); [|discriminate].
    destruct (bool_decide _); [discriminate|].
    intros [= <- <-]. apply _read_pending in E1, E2. lia.
  - intros [= <- <-]. eapply _read_pending, E1.
Qed.

Lemma _read_and_check_Some size f data f' :
  _read_and_check size f = Ok (Some data, f') →
  data ≠ [] ∧ (pending_length f' < pending_length f)%nat.
Proof.
  unfold _read_and_check, mbind, M_bind.
  destruct (_read size f) as [[[d|] f1]|] eqn:E1; [| discriminate ..].
  destruct (_read (calcsize fmt_I) f1) as [[raw f2]|] eqn:E2; [|discriminate].
  unfold lift. destruct (unpack fmt_I raw); [|discriminate].
  destruct (bool_decide _); [discriminate|].
  intros [= <- <-]. apply _read_pending in E2.
  apply _read_Some in E1 as (Hne & rest & -> & ->). split; [exact Hne|].
  simpl in *. rewrite length_app. destruct d; [congruence | simpl; lia].
Qed.

(** ** The loop of [EventsFileReader.__iter__] *)

Section EventsFileReaderFacts.
Context {Event : Type} (ParseFromString : bytes → option Event).


(** The body looks at the rest of the loop only on a shorter stream. *)
Lemma iter_body_ext continue1 continue2 f :
  (∀ f', (pending_length f' < pending_length f)%nat →
         continue1 f' = continue2 f') →
  iter_body ParseFromString continue1 f = iter_body ParseFromString continue2 f.
Proof.
  intros Hext. unfold iter_body.
  destruct (_read_and_check (calcsize fmt_Q) f) as [[[header|] f1]|] eqn:E1;
    try reflexivity.
  destruct (unpack fmt_Q (Some header)) as [event_size|]; try reflexivity.
  destruct (_read_and_check event_size f1) as [[[event_raw|] f2]|] eqn:E2;
    try reflexivity.
  destruct (ParseFromString event_raw); try reflexivity.
  rewrite Hext; [reflexivity|].
  apply _read_and_check_Some in E1 as [_ H1].
  apply _read_and_check_pending in E2. lia.
Qed.

Lemma iter_loop_total fuel f :
  (pending_length f < fuel)%nat → is_Some (iter_loop ParseFromString fuel f).
Proof.
  revert f. induction fuel as [|fuel IH]; intros f Hf; [lia|].
  cbn [iter_loop]. unfold iter_body.
  destruct (_read_and_check (calcsize fmt_Q) f) as [[[header|] f1]|] eqn:E1;
    try (eexists; reflexivity).
  destruct (unpack fmt_Q (Some header)) as [event_size|];
    try (eexists; reflexivity).
  destruct (_read_and_check event_size f1) as [[[event_raw|] f2]|] eqn:E2;
    try (eexists; reflexivity).
  destruct (ParseFromString event_raw); try (eexists; reflexivity).
  apply _read_and_check_Some in E1 as [_ H1].
  apply _read_and_check_pending in E2.
  destruct (IH f2) as [rest ->]; [lia|]. eexists; reflexivity.
Qed.

Lemma iter_loop_stable fuel1 fuel2 f :
  (pending_length f < fuel1)%nat → (pending_length f < fuel2)%nat →
  iter_loop ParseFromString fuel1 f = iter_loop ParseFromString fuel2 f.
Proof.
  revert fuel2 f. induction fuel1 as [|fuel1 IH]; intros fuel2 f H1 H2; [lia|].
  destruct fuel2 as [|fuel2]; [lia|]. cbn [iter_loop].
  apply iter_body_ext. intros f' Hf'. apply IH; lia.
Qed.

(** The reader is total: the fuel it is given is never used up. *)
Lemma EventsFileReader_iter_total f :
  iter_loop ParseFromString (S (pending_length f)) f = Some (EventsFileReader_iter ParseFromString f).
Proof.
  unfold EventsFileReader_iter.
  destruct (iter_loop_total (S (pending_length f)) f) as [r ->]; [lia|].
  reflexivity.
Qed.

(** The equation of the loop. *)
Lemma EventsFileReader_iter_unfold f :
  iter_body ParseFromString (λ f', Some (EventsFileReader_iter ParseFromString f')) f =
    Some (EventsFileReader_iter ParseFromString f).
Proof.
  rewrite <- EventsFileReader_iter_total. cbn [iter_loop].
  apply iter_body_ext. intros f' Hf'.
  rewrite <- EventsFileReader_iter_total. apply iter_loop_stable; lia.
Qed.

Lemma iter_eof : EventsFileReader_iter ParseFromString (Blocking []) = stop Exhausted.
Proof. reflexivity. Qed.

Lemma iter_short_header (p : bytes) :
  p ≠ [] → len p < 8 →
  EventsFileReader_iter ParseFromString (Blocking p) = stop (Raised (EventReadingError ShortRead)).
Proof.
  intros Hne Hlt. pose proof (EventsFileReader_iter_unfold (Blocking p)) as E.
  unfold iter_body in E.
  rewrite _read_and_check_short in E by (simpl; auto). congruence.
Qed.

Lemma len_u64_bound (payload : bytes) :
  len payload < 2 ^ 64 → 0 ≤ len payload < 256 ^ calcsize fmt_Q.
Proof. unfold len. simpl. lia. Qed.

(** Reading the header of a record gives the length of its payload. *)
Lemma iter_body_header continue payload rest :
  len payload < 2 ^ 64 →
  iter_body ParseFromString continue (Blocking (record_header payload ++ rest)) =
    match _read_and_check (len payload) (Blocking rest) with
    | Raise e => Some (stop (Raised e))
    | Ok (None, _) => Some (stop (Raised (EventReadingError UnexpectedEnd)))
    | Ok (Some event_raw, f2) =>
        match ParseFromString event_raw with
        | None => Some (Reading [event_raw] (Run [] (Raised DecodeError)))
        | Some event =>
            rest ← continue f2;
            Some (Reading (event_raw :: parsed rest) (run_cons event (events rest)))
        end
    end.
Proof.
  intros Hlen. unfold iter_body, record_header.
  rewrite <- (len_pack fmt_Q (len payload)) at 1.
  rewrite <- !app_assoc, _read_and_check_ok by apply pack_nonempty.
  rewrite unpack_pack by (apply len_u64_bound, Hlen). reflexivity.
Qed.

Lemma iter_header payload rest :
  len payload < 2 ^ 64 →
  EventsFileReader_iter ParseFromString (Blocking (record_header payload ++ rest)) =
    match _read_and_check (len payload) (Blocking rest) with
    | Raise e => stop (Raised e)
    | Ok (None, _) => stop (Raised (EventReadingError UnexpectedEnd))
    | Ok (Some event_raw, f2) =>
        match ParseFromString event_raw with
        | None => Reading [event_raw] (Run [] (Raised DecodeError))
        | Some event =>
            let rest := EventsFileReader_iter ParseFromString f2 in
            Reading (event_raw :: parsed rest) (run_cons event (events rest))
        end
    end.
Proof.
  intros Hlen.
  pose proof (EventsFileReader_iter_unfold (Blocking (record_header payload ++ rest))) as E.
  rewrite iter_body_header in E by exact Hlen.
  destruct (_read_and_check (len payload) (Blocking rest)) as [[[event_raw|] f2]|];
    try congruence.
  destruct (ParseFromString event_raw); [|congruence].
  symmetry. apply (inj Some). exact E.
Qed.

(** A well-formed record with a payload of at least one byte is read
    back, and the loop goes on with what follows it. *)
Lemma iter_record payload rest :
  payload ≠ [] → len payload < 2 ^ 64 →
  EventsFileReader_iter ParseFromString (Blocking (record payload ++ rest)) =
    match ParseFromString payload with
    | None => Reading [payload] (Run [] (Raised DecodeError))
    | Some event =>
        let rest := EventsFileReader_iter ParseFromString (Blocking rest) in
        Reading (payload :: parsed rest) (run_cons event (events rest))
    end.
Proof.
  intros Hne Hlen. unfold record. rewrite <- !app_assoc.
  rewrite iter_header by exact Hlen.
  rewrite _read_and_check_ok by exact Hne. reflexivity.
Qed.
End EventsFileReaderFacts.

(** ** Inverting one bit of a payload *)

Lemma flip_bit_neq k b : (k < 8)%nat → flip_bit k b ≠ b.
Proof.
  intros Hk E. apply (f_equal byte_to_Z) in E.
  unfold flip_bit in E. rewrite byte_to_of_Z in E.
  apply (f_equal (λ z, Z.testbit z (Z.of_nat k))) in E.
  change 256 with (2 ^ 8) in E.
  rewrite Z.mod_pow2_bits_low, Z.lxor_spec, Z.pow2_bits_true in E by lia.
  destruct (Z.testbit (byte_to_Z b) (Z.of_nat k)); discriminate.
Qed.

Lemma alter_middle {A} (f : A → A) (l : list A) j :
  (j < length l)%nat →
  ∃ pre x post, l = pre ++ x :: post ∧ alter f j l = pre ++ f x :: post.
Proof.
  intros Hj. destruct (lookup_lt_is_Some_2 l j Hj) as [x Hx].
  exists (take j l), x, (drop (S j) l). split.
  - symmetry. apply take_drop_middle, Hx.
  - rewrite <- (take_drop_middle l j x Hx) at 1.
    replace j with (length (take j l) + 0)%nat at 1
      by (rewrite length_take; lia).
    rewrite alter_app_r. reflexivity.
Qed.

Lemma flip_payload_bit_split i payload :
  (i < 8 * length payload)%nat →
  ∃ pre b post,
    payload = pre ++ b :: post
    ∧ flip_payload_bit i payload = pre ++ flip_bit (i mod 8) b :: post.
Proof.
  intros Hi. apply alter_middle.
  apply Nat.Div0.div_lt_upper_bound. lia.
Qed.

Lemma len_flip_payload_bit i payload :
  len (flip_payload_bit i payload) = len payload.
Proof. unfold len, flip_payload_bit. rewrite length_alter. reflexivity. Qed.

(** Neither the CRC-32C nor the masked checksum of a payload survives
    the inversion of one of its bits. *)
Lemma flip_payload_bit_checksum i payload :
  (i < 8 * length payload)%nat →
  _masked_crc32c payload ≠ _masked_crc32c (flip_payload_bit i payload).
Proof.
  intros Hi E. apply _masked_crc32c_crc in E.
  destruct (flip_payload_bit_split i payload Hi) as (pre & b & post & Hp & Hf).
  rewrite Hf in E. rewrite Hp in E at 1.
  apply Crc32cFacts.crc32_one_byte in E.
  symmetry in E. revert E. apply flip_bit_neq.
  apply Nat.mod_upper_bound. lia.
Qed.

(** ** Files of several records *)

Lemma records_nil : records [] = [].
Proof. reflexivity. Qed.

Lemma records_cons p ps : records (p :: ps) = record p ++ records ps.
Proof. reflexivity. Qed.

(** ** Generators in sequence *)

Lemma run_seq_assoc {A} (r1 r2 r3 : run A) :
  run_seq (run_seq r1 r2) r3 = run_seq r1 (run_seq r2 r3).
Proof.
  unfold run_seq. destruct r1 as [y1 [|e1]], r2 as [y2 [|e2]]; simpl;
    try reflexivity.
  rewrite app_assoc. reflexivity.
Qed.

Lemma run_seq_nil_l {A} (r : run A) : run_seq (Run [] Exhausted) r = r.
Proof. destruct r. reflexivity. Qed.

(** What the first generator yields comes first, whatever follows. *)
Lemma yielded_run_seq {A} (r1 r2 : run A) :
  yielded (run_seq r1 r2) =
    yielded r1 ++ match fate r1 with Exhausted => yielded r2 | Raised _ => [] end.
Proof.
  unfold run_seq. destruct (fate r1); simpl; [reflexivity|].
  rewrite app_nil_r. reflexivity.
Qed.

Lemma length_omap_le {A B} (f : A → option B) (l : list A) :
  (length (omap f l) ≤ length l)%nat.
Proof.
  induction l as [|x l IH]; [reflexivity|].
  cbn [omap list_omap]. destruct (f x); simpl; lia.
Qed.

(** ** The decoders and [_decode_events] *)

Section SummaryReaderFacts.
Context {float ndarray : Type}.
Context (imdecode : bytes → result (option ndarray)).
Context (ParseFromString : bytes → option (@Event float)).


Lemma keys_DECODERS : keys (_DECODERS (float:=float) imdecode) = ["scalar"; "image"].
Proof. reflexivity. Qed.

Lemma getitem_scalar : getitem (_DECODERS (float:=float) imdecode) "scalar" = Ok _get_scalar.
Proof. reflexivity. Qed.

Lemma getitem_image : getitem (_DECODERS (float:=float) imdecode) "image" = Ok (_get_image imdecode).
Proof. reflexivity. Qed.

Lemma elem_of_keys_DECODERS (name : string) :
  name ∈ keys (_DECODERS (float:=float) imdecode) ↔ name = "scalar" ∨ name = "image".
Proof.
  rewrite keys_DECODERS. rewrite !elem_of_cons, elem_of_nil. tauto.
Qed.

(** The test of [_check_type_names]. *)
Lemma all_type_names (type_filter : gset string) :
  forallb (λ type_name, bool_decide (type_name ∈ keys (_DECODERS (float:=float) imdecode)))
          (elements type_filter) = true
  ↔ ∀ name, name ∈ type_filter → name = "scalar" ∨ name = "image".
Proof.
  rewrite forallb_forall. split.
  - intros H name Hin. apply elem_of_keys_DECODERS.
    eapply bool_decide_eq_true_1, H, list_elem_of_In, elem_of_elements, Hin.
  - intros H name Hin. apply bool_decide_eq_true_2, elem_of_keys_DECODERS, H.
    apply elem_of_elements, list_elem_of_In, Hin.
Qed.

Lemma SummaryReader_init_valid logdir tag_filter (names : list string) :
  (∀ name, name ∈ names → name = "scalar" ∨ name = "image") →
  SummaryReader_init (float:=float) imdecode logdir tag_filter (Some names) =
    Ok {| _logdir := logdir;
          _tag_filter := list_to_set <$> tag_filter;
          _type_filter := Some (list_to_set names) |}.
Proof.
  intros H. unfold SummaryReader_init, _check_type_names.
  cbn [_type_filter fmap option_fmap option_map].
  replace (forallb _ _) with true; [reflexivity|].
  symmetry. apply all_type_names. intros name Hin.
  apply H. apply elem_of_list_to_set in Hin. exact Hin.
Qed.

Lemma SummaryReader_init_invalid logdir tag_filter (names : list string) name :
  name ∈ names → name ≠ "scalar" → name ≠ "image" →
  SummaryReader_init (float:=float) imdecode logdir tag_filter (Some names) = Raise ValueError.
Proof.
  intros Hin H1 H2. unfold SummaryReader_init, _check_type_names.
  cbn [_type_filter fmap option_fmap option_map].
  destruct (forallb _ _) eqn:E; [|reflexivity].
  apply all_type_names with (name := name) in E; [tauto|].
  apply elem_of_list_to_set. exact Hin.
Qed.

(** *** One value *)

Lemma decode_value_yields type_list event v :
  (length (yielded (decode_value (float:=float) imdecode type_list event v)) ≤ 1)%nat.
Proof.
  induction type_list as [|value_type type_list IH];
    cbn [decode_value]; [simpl; lia|].
  destruct (getitem (_DECODERS (float:=float) imdecode) value_type) as [decoder|]; [|simpl; lia].
  destruct (decoder v) as [[| |]|]; simpl; lia || exact IH.
Qed.

Lemma decode_value_item type_list event v item :
  Some item ∈ yielded (decode_value (float:=float) imdecode type_list event v) →
  decode_value (float:=float) imdecode type_list event v = Run [Some item] Exhausted
  ∧ value item ≠ PyNone
  ∧ tag item = value_tag v
  ∧ step item = event_step event
  ∧ wall_time item = event_wall_time event
  ∧ ∃ before after decoder,
      type_list = before ++ type item :: after
      ∧ Forall (passed_over (float:=float) imdecode v) before
      ∧ getitem (_DECODERS (float:=float) imdecode) (type item) = Ok decoder
      ∧ decoder v = Ok (value item).
Proof.
  induction type_list as [|value_type type_list IH];
    cbn [decode_value].
  { simpl. intros Hin. apply list_elem_of_singleton in Hin. discriminate. }
  destruct (getitem (_DECODERS (float:=float) imdecode) value_type) as [decoder|] eqn:Eget;
    [|simpl; intros Hin; inv Hin].
  destruct (decoder v) as [data|] eqn:Edec; [|simpl; intros Hin; inv Hin].
  destruct (is_None data) eqn:Enone; simpl.
  - intros Hin. destruct (IH Hin) as (E & Hv & Ht & Hs & Hw & before & after & d & Hl & Hb & Hg & Hd).
    repeat (split; [assumption|]).
    exists (value_type :: before), after, d. rewrite Hl.
    repeat split; try assumption.
    constructor; [|exact Hb]. exists decoder.
    destruct data; try discriminate. auto.
  - intros Hin. apply list_elem_of_singleton in Hin. injection Hin as ->.
    simpl. repeat split; try reflexivity.
    + intros Hv. rewrite Hv in Enone. discriminate.
    + exists [], type_list, decoder. repeat split; auto.
Qed.

(** *** The values of one event *)

Lemma decode_values_items type_list event values :
  (length (omap id (yielded (decode_values (float:=float) imdecode type_list event values)))
     ≤ length values)%nat.
Proof.
  induction values as [|v values IH];
    cbn [decode_values]; [simpl; lia|].
  rewrite yielded_run_seq, omap_app, length_app.
  pose proof (decode_value_yields type_list event v) as H1.
  pose proof (length_omap_le id (yielded (decode_value (float:=float) imdecode type_list event v))) as H2.
  destruct (fate (decode_value (float:=float) imdecode type_list event v)); simpl in *; lia.
Qed.

(** *** Filters that keep (float:=float) (ndarray:=ndarray) nothing *)

Lemma items_of_file_none self f :
  (∀ item, keep (float:=float) (ndarray:=ndarray) self item = false) →
  yielded (items_of_file imdecode ParseFromString self f) = [].
Proof.
  intros Hkeep. unfold items_of_file. cbn [yielded].
  generalize (yielded (_decode_events imdecode self
                (events (EventsFileReader_iter ParseFromString f)))).
  intros l. induction l as [|item l IH]; [reflexivity|].
  rewrite filter_cons. destruct (decide _) as [H|H]; [|exact IH].
  rewrite Hkeep in H. destruct H.
Qed.

Lemma scan_none self files :
  (∀ item, keep (float:=float) (ndarray:=ndarray) self item = false) → yielded (scan imdecode ParseFromString self files) = [].
Proof.
  intros Hkeep. induction files as [|file files IH]; [reflexivity|].
  cbn [scan]. rewrite yielded_run_seq, items_of_file_none by exact Hkeep.
  destruct (fate _); [exact IH | reflexivity].
Qed.

Lemma keep_empty_tag_filter self :
  _tag_filter self = Some ∅ → ∀ item, keep (float:=float) (ndarray:=ndarray) self item = false.
Proof.
  intros H [item|]; [|reflexivity]. unfold keep, _check_tag. rewrite H.
  rewrite bool_decide_eq_false_2 by apply not_elem_of_empty. reflexivity.
Qed.

Lemma keep_empty_type_filter self :
  _type_filter self = Some ∅ → ∀ item, keep (float:=float) (ndarray:=ndarray) self item = false.
Proof.
  intros H [item|]; [|reflexivity]. unfold keep, _check_type. rewrite H.
  rewrite bool_decide_eq_false_2 by apply not_elem_of_empty.
  apply andb_false_r.
Qed.
End SummaryReaderFacts.

(** ** The order of the files *)

Global Instance path_le_total : Total path_le.
Proof. intros x y. unfold path_le. apply (total String.le). Qed.

Global Instance path_le_trans : Transitive path_le.
Proof. intros x y z. unfold path_le. apply (transitivity (R := String.le)). Qed.

Lemma path_le_antisym x y : path_le x y → path_le y x → x.1 = y.1.
Proof. unfold path_le. apply (anti_symm String.le). Qed.

Lemma forget_mtime_name f : (forget_mtime f).1 = f.1.
Proof. reflexivity. Qed.

Lemma forget_mtime_is_file f : is_file (forget_mtime f).2 = is_file f.2.
Proof. destruct f as [name []]; reflexivity. Qed.

Lemma forget_mtime_open f : open_rb (forget_mtime f).2 = open_rb f.2.
Proof. destruct f as [name []]; reflexivity. Qed.

Lemma forget_mtime_names (l : list (string * node)) :
  (forget_mtime <$> l).*1 = l.*1.
Proof. induction l as [|f l IH]; [reflexivity|]. csimpl. rewrite IH. reflexivity. Qed.

Lemma forget_mtime_filter (l : list (string * node)) :
  forget_mtime <$> filter (λ f, is_file f.2) l =
    filter (λ f, is_file f.2) (forget_mtime <$> l).
Proof.
  induction l as [|f l IH]; [reflexivity|]. csimpl. rewrite !filter_cons.
  rewrite forget_mtime_is_file.
  destruct (decide (is_file f.2)); csimpl; rewrite IH; reflexivity.
Qed.

Lemma NoDup_names_filter (P : string * node → Prop) `{∀ x, Decision (P x)}
    (l : list (string * node)) :
  NoDup l.*1 → NoDup (filter P l).*1.
Proof.
  induction l as [|f l IH]; [intros; constructor|].
  csimpl. rewrite NoDup_cons. intros [Hnotin Hnd]. rewrite filter_cons.
  destruct (decide (P f)); [|auto].
  csimpl. apply NoDup_cons. split; [|auto].
  intros Hin. apply Hnotin.
  apply list_elem_of_fmap in Hin as (g & -> & Hg).
  apply list_elem_of_filter in Hg as [_ Hg].
  apply list_elem_of_fmap. eauto.
Qed.

(** In a directory, an entry is known by its name. *)
Lemma NoDup_names_inj (l : list (string * node)) x y :
  NoDup l.*1 → x ∈ l → y ∈ l → x.1 = y.1 → x = y.
Proof.
  induction l as [|f l IH]; [intros _ Hx; inv Hx|].
  csimpl. rewrite NoDup_cons. intros [Hnotin Hnd] Hx Hy Hxy.
  apply elem_of_cons in Hx as [-> | Hx], Hy as [-> | Hy]; auto.
  - exfalso. apply Hnotin. rewrite Hxy. apply list_elem_of_fmap. eauto.
  - exfalso. apply Hnotin. rewrite <- Hxy. apply list_elem_of_fmap. eauto.
Qed.

Section ScanFacts.
Context {float ndarray : Type}.
Context (imdecode : bytes → result (option ndarray)).
Context (ParseFromString : bytes → option (@Event float)).


Lemma log_files_Permutation self (fs : FileSystem) :
  log_files self fs ≡ₚ filter (λ f, is_file f.2) (fs (_logdir self)).
Proof. apply merge_sort_Permutation. Qed.

Lemma log_files_sorted self (fs : FileSystem) :
  StronglySorted path_le (log_files self fs).
Proof. apply StronglySorted_merge_sort; apply _. Qed.

Lemma log_files_names_sorted self (fs : FileSystem) :
  StronglySorted String.le (log_files self fs).*1.
Proof.
  apply (StronglySorted_fmap fst path_le); [|apply log_files_sorted].
  intros x y H. exact H.
Qed.

Lemma log_files_NoDup self (fs : FileSystem) :
  NoDup (fs (_logdir self)).*1 → NoDup (log_files self fs).*1.
Proof.
  intros Hnd. rewrite log_files_Permutation.
  apply NoDup_names_filter. exact Hnd.
Qed.

(** The files of a prefix of the list are read through before any file
    of the rest is opened. *)
Lemma scan_app self l1 l2 :
  scan imdecode ParseFromString self (l1 ++ l2) = run_seq (scan imdecode ParseFromString self l1) (scan imdecode ParseFromString self l2).
Proof.
  induction l1 as [|f l1 IH]; cbn [scan app].
  - rewrite run_seq_nil_l. reflexivity.
  - rewrite IH, run_seq_assoc. reflexivity.
Qed.

Lemma scan_forget_mtime self l :
  scan imdecode ParseFromString self (forget_mtime <$> l) = scan imdecode ParseFromString self l.
Proof.
  induction l as [|f l IH]; [reflexivity|].
  rewrite fmap_cons. cbn [scan]. rewrite IH, forget_mtime_open. reflexivity.
Qed.

(** Two enumerations of the same entries, in any order and with any
    times, give the same list of files up to the times. *)
Lemma log_files_enumeration self (fs fs' : FileSystem) :
  NoDup (fs (_logdir self)).*1 →
  forget_mtime <$> fs' (_logdir self) ≡ₚ forget_mtime <$> fs (_logdir self) →
  forget_mtime <$> log_files self fs' = forget_mtime <$> log_files self fs.
Proof.
  intros Hnd Hperm.
  assert (Hp : forget_mtime <$> log_files self fs'
                 ≡ₚ forget_mtime <$> log_files self fs).
  { rewrite !log_files_Permutation, !forget_mtime_filter, Hperm. reflexivity. }
  apply (StronglySorted_unique_strong path_le); [| | |exact Hp].
  - intros x1 x2 H1 H2 H12 H21.
    apply (NoDup_names_inj (forget_mtime <$> log_files self fs)).
    + rewrite forget_mtime_names. apply log_files_NoDup, Hnd.
    + rewrite <- Hp. exact H1.
    + exact H2.
    + apply path_le_antisym; assumption.
  - apply (StronglySorted_fmap forget_mtime path_le); [|apply log_files_sorted].
    intros x y H. exact H.
  - apply (StronglySorted_fmap forget_mtime path_le); [|apply log_files_sorted].
    intros x y H. exact H.
Qed.

Lemma SummaryReader_iter_enumeration self (fs fs' : FileSystem) :
  NoDup (fs (_logdir self)).*1 →
  forget_mtime <$> fs' (_logdir self) ≡ₚ forget_mtime <$> fs (_logdir self) →
  SummaryReader_iter imdecode ParseFromString self fs' = SummaryReader_iter imdecode ParseFromString self fs.
Proof.
  intros Hnd Hperm. unfold SummaryReader_iter.
  rewrite <- (scan_forget_mtime self (log_files self fs')).
  rewrite <- (scan_forget_mtime self (log_files self fs)).
  rewrite (log_files_enumeration self fs fs') by assumption. reflexivity.
Qed.
End ScanFacts.

(** ** The claims *)

(** C2: the masked checksum of a byte string is its CRC-32C, rotated
    right by 15 bits within 32 bits, plus [0xa282ead8] modulo [2^32];
    it is a function of the bytes alone and an unsigned 32-bit value. *)
Theorem masked_checksum_formula (b : bytes) :
  _masked_crc32c b =
    ((Z.lor (Z.shiftr (crc32c b) 15) (Z.shiftl (crc32c b) 17)) mod 2 ^ 32
       + 0xa282ead8) mod 2 ^ 32
  ∧ 0 ≤ _masked_crc32c b < 2 ^ 32.
Proof.
  split; [| apply _masked_crc32c_range].
  rewrite _masked_crc32c_rot, _u32_mod, rot_mod by apply Crc32cFacts.crc32_range.
  reflexivity.
Qed.

(** C1 fails on the empty payload: the well-formed record of the empty
    byte string is the 8 zero bytes of its length, their checksum, no
    payload byte and the checksum of the empty string.  The reader asks
    for a payload of 0 bytes, takes the empty answer for the end of the
    stream and raises 'Unexpected end of events file'; nothing is handed
    to the parser and nothing is yielded. *)
Theorem empty_payload_not_read_back
    {Event : Type} (ParseFromString : bytes → option Event) :
  EventsFileReader_iter ParseFromString (Blocking (record [])) =
    Reading [] (Run [] (Raised (EventReadingError UnexpectedEnd))).
Proof.
  unfold record. rewrite iter_header by (unfold len; simpl; lia).
  reflexivity.
Qed.

(** Round trip of a payload of at least one byte (and of less than
    [2^64] bytes, so that its length can be written): the stream that
    holds its record and nothing else hands exactly the payload to the
    parser, yields the event parsed from it and ends without error. *)
Lemma record_round_trip
    {Event : Type} (ParseFromString : bytes → option Event) payload event :
  payload ≠ [] → len payload < 2 ^ 64 →
  ParseFromString payload = Some event →
  EventsFileReader_iter ParseFromString (Blocking (record payload)) =
    Reading [payload] (Run [event] Exhausted).
Proof.
  intros Hne Hlen Hparse. rewrite <- (app_nil_r (record payload)).
  rewrite iter_record, Hparse by assumption. reflexivity.
Qed.

(** C3: in a stream that holds one well-formed record with a payload of
    at least one byte, let bit [i] of the stored payload be inverted.
    Reading raises [EventReadingError] 'Invalid checksum' with the stored
    and the computed checksum, which differ; no byte string was handed to
    the parser and no event was yielded. *)
Theorem payload_bit_flip_detected
    {Event : Type} (ParseFromString : bytes → option Event) payload i :
  len payload < 2 ^ 64 →
  (i < 8 * length payload)%nat →
  let stored := _masked_crc32c payload in
  let computed := _masked_crc32c (flip_payload_bit i payload) in
  stored ≠ computed
  ∧ EventsFileReader_iter ParseFromString (Blocking (corrupted_record i payload)) =
      Reading [] (Run [] (Raised (EventReadingError (InvalidChecksum stored computed))))
  ∧ taxonomy (EventReadingError (InvalidChecksum stored computed)) =
      Some ChecksumMismatch.
Proof.
  intros Hlen Hi stored computed.
  pose proof (flip_payload_bit_checksum i payload Hi) as Hneq.
  split; [exact Hneq|]. split; [|reflexivity].
  unfold corrupted_record.
  rewrite iter_header by exact Hlen.
  rewrite <- (len_flip_payload_bit i payload).
  rewrite <- (app_nil_r (pack fmt_I _)).
  rewrite _read_and_check_stored.
  - rewrite bool_decide_eq_true_2 by exact Hneq. reflexivity.
  - intros Hnil. apply (f_equal length) in Hnil.
    unfold flip_payload_bit in Hnil. rewrite length_alter in Hnil.
    simpl in Hnil. lia.
  - apply _masked_crc32c_range.
Qed.

Lemma payload_bit_flip_detected_witness :
  len [x61; x62] < 2 ^ 64
  ∧ (9 < 8 * length [x61; x62])%nat
  ∧ EventsFileReader_iter (λ b : bytes, Some b)
        (Blocking (corrupted_record 9 [x61; x62])) =
      Reading [] (Run [] (Raised (EventReadingError
        (InvalidChecksum (_masked_crc32c [x61; x62])
                         (_masked_crc32c (flip_payload_bit 9 [x61; x62])))))).
Proof.
  split; [vm_compute; reflexivity|]. split; [simpl; lia|].
  apply (payload_bit_flip_detected (λ b : bytes, Some b) [x61; x62] 9).
  - vm_compute. reflexivity.
  - simpl. lia.
Defined.

(** C4: a record boundary is reached after any number of well-formed
    records (each with a payload of at least one byte that the parser
    accepts).  Let fewer than 8 bytes follow it.  When none follows, the
    reader yields the events of these records and ends without error;
    when 1 to 7 bytes follow, it yields the same events and then raises
    [EventReadingError] 'The size of read data is less than requested
    size', a truncated record of the taxonomy. *)
Theorem length_header_truncation
    {Event : Type} (ParseFromString : bytes → option Event)
    (payloads : list bytes) (tail : bytes) :
  Forall (λ p, p ≠ [] ∧ len p < 2 ^ 64 ∧ is_Some (ParseFromString p)) payloads →
  (length tail < 8)%nat →
  EventsFileReader_iter ParseFromString (Blocking (records payloads ++ tail)) =
    Reading payloads
      (Run (omap ParseFromString payloads)
           (if decide (tail = []) then Exhausted
            else Raised (EventReadingError ShortRead)))
  ∧ length (omap ParseFromString payloads) = length payloads
  ∧ taxonomy (EventReadingError ShortRead) = Some TruncatedRecord.
Proof.
  intros Hall Htail. split; [|split; [|reflexivity]].
  - induction Hall as [|p ps (Hne & Hlen & ev & Hev) _ IH].
    + rewrite records_nil. simpl. destruct (decide (tail = [])) as [-> | Hne].
      * apply iter_eof.
      * apply iter_short_header; [exact Hne | unfold len; lia].
    + rewrite records_cons, <- app_assoc, iter_record by assumption.
      cbn [omap list_omap]. rewrite Hev, IH. reflexivity.
  - induction Hall as [|p ps (_ & _ & ev & Hev) _ IH]; [reflexivity|].
    cbn [omap list_omap]. rewrite Hev. simpl. f_equal. exact IH.
Qed.

Lemma length_header_truncation_witness :
  EventsFileReader_iter (λ b : bytes, Some b)
      (Blocking (records [[x61]; [x62; x63]] ++ [x01; x00; x00])) =
    Reading [[x61]; [x62; x63]]
      (Run [[x61]; [x62; x63]] (Raised (EventReadingError ShortRead))).
Proof.
  apply (length_header_truncation (λ b : bytes, Some b)
           [[x61]; [x62; x63]] [x01; x00; x00]).
  - repeat constructor; try discriminate; try (vm_compute; reflexivity);
      eexists; reflexivity.
  - simpl. lia.
Defined.

(** C8 fails where a stream ends with no byte left at the place of a
    4-byte checksum.  After the 8 bytes of a length, or after a header
    and a whole payload, [_read] returns [None] for the checksum and
    [struct.unpack] raises [TypeError] on it, which is none of the errors
    of the taxonomy. *)
Theorem checksum_field_eof_raises_TypeError
    {Event : Type} (ParseFromString : bytes → option Event) (n : Z) :
  EventsFileReader_iter ParseFromString (Blocking (pack fmt_Q n)) =
    Reading [] (Run [] (Raised TypeError))
  ∧ EventsFileReader_iter ParseFromString
        (Blocking (record_header [x61; x62; x63] ++ [x61; x62; x63])) =
      Reading [] (Run [] (Raised TypeError))
  ∧ taxonomy TypeError = None.
Proof.
  split; [|split; [|reflexivity]].
  - pose proof (EventsFileReader_iter_unfold ParseFromString
                  (Blocking (pack fmt_Q n))) as E.
    unfold iter_body in E.
    rewrite <- (len_pack fmt_Q n) in E at 1.
    rewrite _read_and_check_no_checksum in E by apply pack_nonempty.
    symmetry. apply (inj Some). exact E.
  - rewrite iter_header by (vm_compute; reflexivity).
    rewrite _read_and_check_no_checksum by discriminate. reflexivity.
Qed.

(** C5, as the code has it: let a value carry an encoded image and let
    the type names in use be names of decoders.  When the codec returns
    no image for the bytes, no decoder returns a value, the loop over the
    types ends in its [else] and yields [None], which [__iter__] drops:
    no item and no error.  When the codec raises and the image decoder is
    in use, its exception leaves the generator at that value.  An item is
    emitted only when the codec returns an image, and it carries that
    very image. *)
Theorem undecodable_image_dropped
    {float ndarray : Type} (imdecode : bytes → result (option ndarray))
    (type_list : list string) (event : @Event float) (v : Value) encoded :
  value_value v = image encoded →
  Forall (λ name, name ∈ keys (_DECODERS (float:=float) imdecode)) type_list →
  (imdecode encoded = Ok None →
     decode_value imdecode type_list event v = Run [None] Exhausted
     ∧ ∀ self, keep (float:=float) (ndarray:=ndarray) self None = false)
  ∧ (∀ e, imdecode encoded = Raise e → "image" ∈ type_list →
     decode_value imdecode type_list event v = Run [] (Raised e))
  ∧ (∀ a, imdecode encoded = Ok (Some a) → "image" ∈ type_list →
     decode_value imdecode type_list event v =
       Run [Some {| tag := value_tag v; step := event_step event;
                    wall_time := event_wall_time event;
                    value := PyArray a; type := "image" |}] Exhausted).
Proof.
  intros Hv Hvalid.
  assert (Hscalar : _get_scalar (ndarray:=ndarray) v = Ok PyNone)
    by (unfold _get_scalar; rewrite Hv; reflexivity).
  split; [|split].
  - intros Hnone. split; [|reflexivity].
    induction Hvalid as [|name type_list Hname _ IH]; [reflexivity|].
    cbn [decode_value].
    apply elem_of_keys_DECODERS in Hname as [-> | ->].
    + rewrite getitem_scalar, Hscalar. exact IH.
    + rewrite getitem_image. unfold _get_image. rewrite Hv, Hnone. exact IH.
  - intros e He. induction Hvalid as [|name type_list Hname _ IH].
    { intros Hin. inv Hin. }
    intros Hin. cbn [decode_value].
    apply elem_of_keys_DECODERS in Hname as [-> | ->].
    + rewrite getitem_scalar, Hscalar. apply IH.
      apply elem_of_cons in Hin as [Hin | Hin]; [discriminate | exact Hin].
    + rewrite getitem_image. unfold _get_image. rewrite Hv, He. reflexivity.
  - intros a Ha. induction Hvalid as [|name type_list Hname _ IH].
    { intros Hin. inv Hin. }
    intros Hin. cbn [decode_value].
    apply elem_of_keys_DECODERS in Hname as [-> | ->].
    + rewrite getitem_scalar, Hscalar. apply IH.
      apply elem_of_cons in Hin as [Hin | Hin]; [discriminate | exact Hin].
    + rewrite getitem_image. unfold _get_image. rewrite Hv, Ha. reflexivity.
Qed.

Lemma undecodable_image_dropped_witness :
  decode_value no_codec ["scalar"; "image"] image_event
      {| value_tag := "img"; value_value := image [x00] |} =
    Run [None] Exhausted.
Proof.
  apply (undecodable_image_dropped no_codec ["scalar"; "image"] image_event
           {| value_tag := "img"; value_value := image [x00] |} [x00]).
  - reflexivity.
  - repeat constructor.
  - reflexivity.
Defined.

(** C5 as stated fails: with a codec that can decode nothing, the scan of
    a file whose only event carries an encoded image ends without any
    error, and the value has left no trace in the output. *)
Lemma undecodable_image_no_error :
  SummaryReader_init (float:=Z) no_codec "logs" None None = Ok plain_reader
  ∧ SummaryReader_iter no_codec (λ _, Some image_event) plain_reader one_file =
      Run [] Exhausted
  ∧ ¬ ∃ e, fate (SummaryReader_iter no_codec (λ _, Some image_event)
                   plain_reader one_file) = Raised e.
Proof.
  assert (E : SummaryReader_iter no_codec (λ _, Some image_event)
                plain_reader one_file = Run [] Exhausted)
    by (vm_compute; reflexivity).
  split; [reflexivity|]. split; [exact E|].
  rewrite E. intros [e He]. discriminate.
Qed.

(** C6: a type filter with a name that is neither "scalar" nor "image"
    makes the constructor raise [ValueError]; a type filter whose names
    are all among these two, and an absent one, give a reader.  The
    constructor is a function of its three arguments: no file system is
    within its reach. *)
Theorem type_filter_checked_at_construction
    {float ndarray : Type} (imdecode : bytes → result (option ndarray))
    (logdir : string) (tag_filter : option (list string)) :
  (∀ names name, name ∈ names → name ≠ "scalar" → name ≠ "image" →
     SummaryReader_init (float:=float) imdecode logdir tag_filter (Some names) =
       Raise ValueError)
  ∧ (∀ names, (∀ name, name ∈ names → name = "scalar" ∨ name = "image") →
     SummaryReader_init (float:=float) imdecode logdir tag_filter (Some names) =
       Ok {| _logdir := logdir;
             _tag_filter := list_to_set <$> tag_filter;
             _type_filter := Some (list_to_set names) |})
  ∧ SummaryReader_init (float:=float) imdecode logdir tag_filter None =
      Ok {| _logdir := logdir;
            _tag_filter := list_to_set <$> tag_filter;
            _type_filter := None |}
  ∧ taxonomy ValueError = Some ConfigurationError.
Proof.
  split; [|split; [|split; reflexivity]].
  - intros names name. apply SummaryReader_init_invalid.
  - intros names. apply SummaryReader_init_valid.
Qed.

Lemma type_filter_checked_at_construction_witness :
  SummaryReader_init (float:=Z) no_codec "logs" None (Some ["audio"]) =
    Raise ValueError
  ∧ SummaryReader_init (float:=Z) no_codec "logs" None (Some ["image"; "scalar"]) =
      Ok {| _logdir := "logs"; _tag_filter := None;
            _type_filter := Some (list_to_set ["image"; "scalar"]) |}.
Proof.
  destruct (type_filter_checked_at_construction (float:=Z) no_codec "logs" None)
    as (Hbad & Hgood & _).
  split.
  - apply (Hbad ["audio"] "audio"); [repeat constructor | discriminate ..].
  - apply (Hgood ["image"; "scalar"]). intros name Hin.
    apply elem_of_cons in Hin as [-> | Hin]; [right; reflexivity|].
    apply list_elem_of_singleton in Hin as ->. left; reflexivity.
Defined.

(** C9: for one value of one event, the loop over the type names yields
    at most once, so at most one item.  An item that is yielded is the
    only thing yielded for the value; its [value] is not [None] and is
    what the decoder named by its [type] returned for this value, its
    other fields come from the value and the event, and every type name
    tried before its own had a decoder that returned [None].  Hence the
    values of an event give no more items than there are values. *)
Theorem at_most_one_item_per_value
    {float ndarray : Type} (imdecode : bytes → result (option ndarray))
    (type_list : list string) (event : @Event float) (v : Value) :
  (length (yielded (decode_value imdecode type_list event v)) ≤ 1)%nat
  ∧ (∀ values,
       (length (omap id (yielded (decode_values imdecode type_list event values)))
          ≤ length values)%nat)
  ∧ ∀ item, Some item ∈ yielded (decode_value imdecode type_list event v) →
      decode_value imdecode type_list event v = Run [Some item] Exhausted
      ∧ value item ≠ PyNone
      ∧ tag item = value_tag v
      ∧ step item = event_step event
      ∧ wall_time item = event_wall_time event
      ∧ ∃ before after decoder,
          type_list = before ++ type item :: after
          ∧ Forall (passed_over imdecode v) before
          ∧ getitem (_DECODERS imdecode) (type item) = Ok decoder
          ∧ decoder v = Ok (value item).
Proof.
  split; [apply decode_value_yields|]. split; [apply decode_values_items|].
  apply decode_value_item.
Qed.

Lemma at_most_one_item_per_value_witness :
  let v := {| value_tag := "loss"; value_value := simple_value 5 |} in
  let item := {| tag := "loss"; step := 1; wall_time := 0;
                 value := PyFloat 5; type := "scalar" |} in
  decode_value no_codec ["image"; "scalar"; "scalar"] image_event v =
    Run [Some item] Exhausted
  ∧ value item ≠ PyNone.
Proof.
  intros v item.
  destruct (at_most_one_item_per_value no_codec ["image"; "scalar"; "scalar"]
              image_event v) as (_ & _ & H).
  destruct (H item) as (E & Hv & _); [|split; assumption].
  vm_compute. repeat constructor.
Defined.

(** C10: a reader constructed with an empty tag filter yields no item on
    any file system, and a reader constructed with an empty type filter
    is constructed without error and yields no item on any file system:
    the empty set is a filter, not the absence of one. *)
Theorem empty_filters_accept_nothing
    {float ndarray : Type} (imdecode : bytes → result (option ndarray))
    (ParseFromString : bytes → option (@Event float))
    (logdir : string) (fs : FileSystem) :
  (∀ type_filter self,
     SummaryReader_init (float:=float) imdecode logdir (Some []) type_filter = Ok self →
     _tag_filter self = Some ∅
     ∧ yielded (SummaryReader_iter imdecode ParseFromString self fs) = [])
  ∧ (∀ tag_filter, ∃ self,
     SummaryReader_init (float:=float) imdecode logdir tag_filter (Some []) = Ok self
     ∧ _type_filter self = Some ∅
     ∧ yielded (SummaryReader_iter imdecode ParseFromString self fs) = []).
Proof.
  split.
  - intros type_filter self Hinit.
    assert (Htag : _tag_filter self = Some ∅).
    { unfold SummaryReader_init in Hinit.
      destruct (_check_type_names _ _); [|discriminate].
      injection Hinit as <-. reflexivity. }
    split; [exact Htag|].
    apply scan_none, keep_empty_tag_filter, Htag.
  - intros tag_filter. eexists. split; [|split].
    + apply SummaryReader_init_valid. intros name Hin. inv Hin.
    + reflexivity.
    + apply scan_none, keep_empty_type_filter. reflexivity.
Qed.

Lemma empty_filters_accept_nothing_witness :
  yielded (SummaryReader_iter (λ b : bytes, Ok (Some b)) (λ _, Some image_event)
             {| _logdir := "logs"; _tag_filter := Some ∅; _type_filter := None |}
             one_file) = [].
Proof.
  destruct (empty_filters_accept_nothing (λ b : bytes, Ok (Some b))
              (λ _, Some image_event) "logs" one_file) as [H _].
  apply (H None). reflexivity.
Defined.

(** C7: let the names in the directory of the reader be distinct.  The
    files that are read are the regular files listed directly in this
    directory, each once, by ascending name; the output is that of the
    files taken in this order, what a file yields standing before what
    any later file yields, and a later file being read only when the
    earlier ones are exhausted; and another enumeration of the same
    entries, in any order and with any modification times, whatever it
    holds in other directories, gives the same output. *)
Theorem multi_file_ordering
    {float ndarray : Type} (imdecode : bytes → result (option ndarray))
    (ParseFromString : bytes → option (@Event float))
    (self : SummaryReader) (fs : FileSystem) :
  NoDup (fs (_logdir self)).*1 →
  let files := log_files self fs in
  files ≡ₚ filter (λ f, is_file f.2) (fs (_logdir self))
  ∧ StronglySorted String.le files.*1
  ∧ NoDup files.*1
  ∧ (∀ earlier later, files = earlier ++ later →
       SummaryReader_iter imdecode ParseFromString self fs =
         run_seq (scan imdecode ParseFromString self earlier)
                 (scan imdecode ParseFromString self later)
       ∧ yielded (SummaryReader_iter imdecode ParseFromString self fs) =
           yielded (scan imdecode ParseFromString self earlier)
           ++ match fate (scan imdecode ParseFromString self earlier) with
              | Exhausted => yielded (scan imdecode ParseFromString self later)
              | Raised _ => []
              end)
  ∧ (∀ fs' : FileSystem,
       forget_mtime <$> fs' (_logdir self) ≡ₚ forget_mtime <$> fs (_logdir self) →
       SummaryReader_iter imdecode ParseFromString self fs' =
         SummaryReader_iter imdecode ParseFromString self fs).
Proof.
  intros Hnd files. repeat split.
  - apply log_files_Permutation.
  - apply log_files_names_sorted.
  - apply log_files_NoDup, Hnd.
  - unfold SummaryReader_iter. fold files. rewrite H. apply scan_app.
  - unfold SummaryReader_iter. fold files. rewrite H, scan_app.
    apply yielded_run_seq.
  - intros fs' Hperm. apply SummaryReader_iter_enumeration; assumption.
Qed.

Lemma multi_file_ordering_witness :
  (log_files plain_reader two_files).*1 = ["a"; "b"]
  ∧ tag <$> yielded (SummaryReader_iter no_codec tag_event plain_reader two_files) =
      ["a"; "b"]
  ∧ SummaryReader_iter no_codec tag_event plain_reader two_files_later =
      SummaryReader_iter no_codec tag_event plain_reader two_files.
Proof.
  assert (Hnd : NoDup (two_files (_logdir plain_reader)).*1).
  { apply (bool_decide_unpack _). vm_compute. exact I. }
  destruct (multi_file_ordering no_codec tag_event plain_reader two_files Hnd)
    as (_ & _ & _ & _ & Hsame).
  split; [vm_compute; reflexivity|]. split; [vm_compute; reflexivity|].
  apply Hsame. vm_compute. exact (Permutation_cons_append [_; _] _).
Defined.

(** * Further properties of the reader *)

(** ** [struct.unpack] undone *)

Lemma le_of_to_Z (data : bytes) : le_of_Z (length data) (le_to_Z data) = data.
Proof.
  induction data as [|b data IH]; [reflexivity|].
  cbn [length le_to_Z le_of_Z]. pose proof (byte_to_Z_range b) as Hb.
  replace (byte_to_Z b + 256 * le_to_Z data)
    with (byte_to_Z b + le_to_Z data * 256) by lia.
  f_equal.
  - rewrite <- (byte_of_to_Z b) at 2. unfold byte_of_Z.
    rewrite Z.mod_add by lia. reflexivity.
  - rewrite Z.div_add by lia.
    rewrite Z.div_small by lia. exact IH.
Qed.

Lemma le_to_Z_range (data : bytes) : 0 ≤ le_to_Z data < 256 ^ len data.
Proof.
  unfold len. induction data as [|b data IH]; [simpl; lia|].
  cbn [length le_to_Z]. rewrite Nat2Z.inj_succ, Z.pow_succ_r by lia.
  pose proof (byte_to_Z_range b). lia.
Qed.

Lemma unpack_Some f data z :
  unpack f (Some data) = Ok z →
  z = le_to_Z data ∧ len data = calcsize f ∧ pack f z = data.
Proof.
  unfold unpack. destruct (len data =? calcsize f) eqn:E; [|discriminate].
  apply Z.eqb_eq in E. intros [= <-]. repeat split; [exact E|].
  unfold pack. rewrite <- E. unfold len. rewrite Nat2Z.id. apply le_of_to_Z.
Qed.

Lemma unpack_length f (data : bytes) :
  len data = calcsize f → unpack f (Some data) = Ok (le_to_Z data).
Proof. intros H. unfold unpack. rewrite H, Z.eqb_refl. reflexivity. Qed.

(** ** More on [_read] and [_read_and_check] *)

Lemma _read_Some_len size f data f' :
  _read size f = Ok (Some data, f') → len data = size.
Proof.
  unfold _read, file_read. destruct f as [p|]; [|discriminate].
  destruct ((0 <? len _) && _) eqn:E1; [discriminate|].
  destruct (len (take (Z.to_nat size) p) =? 0) eqn:E2; [discriminate|].
  intros [= <- <-]. apply Z.eqb_neq in E2.
  apply andb_false_iff in E1 as [E1 | E1].
  - apply Z.ltb_ge in E1. pose proof (Nat2Z.is_nonneg (length (take (Z.to_nat size) p))).
    unfold len in *. lia.
  - apply Z.ltb_ge in E1. unfold len in *. rewrite length_take in *. lia.
Qed.



Lemma _read_and_check_data size f data f' :
  _read_and_check size f = Ok (Some data, f') →
  len data = size ∧ data ≠ []
  ∧ ∃ rest, f = Blocking (data ++ pack fmt_I (_masked_crc32c data) ++ rest)
            ∧ f' = Blocking rest.
Proof.
  unfold _read_and_check, mbind, M_bind.
  destruct (_read size f) as [[[d|] f1]|] eqn:E1; [| discriminate ..].
  destruct (_read (calcsize fmt_I) f1) as [[raw f2]|] eqn:E2; [|discriminate].
  unfold lift. destruct (unpack fmt_I raw) as [c|] eqn:E3; [|discriminate].
  destruct (bool_decide (c ≠ _masked_crc32c d)) eqn:E4; [discriminate|].
  intros [= <- <-]. apply bool_decide_eq_false in E4.
  assert (c = _masked_crc32c d) as -> by (destruct (decide (c = _masked_crc32c d)); tauto).
  pose proof (_read_Some_len _ _ _ _ E1) as Hlen.
  apply _read_Some in E1 as (Hne & rest1 & -> & ->).
  destruct raw as [raw|]; [|discriminate].
  apply unpack_Some in E3 as (_ & _ & Hpack).
  apply _read_Some in E2 as (_ & rest2 & [= ->] & ->).
  repeat split; try assumption. exists rest2. rewrite Hpack. auto.
Qed.


Lemma _read_None size (p : bytes) f' :
  _read size (Blocking p) = Ok (None, f') → (size ≤ 0 ∨ p = []) ∧ f' = Blocking p.
Proof.
  unfold _read, file_read.
  destruct (_ && _); [discriminate|].
  destruct (len (take (Z.to_nat size) p) =? 0) eqn:E; [|discriminate].
  intros [= <-]. apply Z.eqb_eq in E. unfold len in E.
  assert (Hnil : take (Z.to_nat size) p = [])
    by (apply length_zero_iff_nil; lia).
  pose proof (take_drop (Z.to_nat size) p) as Htd. rewrite Hnil in Htd.
  simpl in Htd. rewrite Htd. split; [|reflexivity].
  destruct p as [|b p]; [auto|]. left.
  destruct (Z.to_nat size) eqn:En; [lia | discriminate].
Qed.

Lemma _read_and_check_None size (p : bytes) f' :
  _read_and_check size (Blocking p) = Ok (None, f') →
  (size ≤ 0 ∨ p = []) ∧ f' = Blocking p.
Proof.
  unfold _read_and_check, mbind, M_bind.
  destruct (_read size (Blocking p)) as [[[d|] f1]|] eqn:E1; [| |discriminate].
  - destruct (_read (calcsize fmt_I) f1) as [[raw f2]|]; [|discriminate].
    unfold lift. destruct (unpack fmt_I raw); [|discriminate].
    destruct (bool_decide _); discriminate.
  - intros [= <-]. eapply _read_None, E1.
Qed.

Lemma length_pack f z : length (pack f z) = Z.to_nat (calcsize f).
Proof. unfold pack. apply length_le_of_Z. Qed.

Lemma length_record payload : length (record payload) = (16 + length payload)%nat.
Proof.
  unfold record, record_header. rewrite !length_app, !length_pack. simpl. lia.
Qed.

Lemma length_records_ge (payloads : list bytes) :
  Forall (λ p, p ≠ [] ∧ len p < 2 ^ 64) payloads →
  (17 * length payloads ≤ length (records payloads))%nat.
Proof.
  induction 1 as [|p ps [Hne _] _ IH]; [simpl; lia|].
  rewrite records_cons, length_app, length_record. cbn [length].
  assert (1 ≤ length p)%nat by (destruct p; [congruence | simpl; lia]).
  lia.
Qed.

(** ** More on the loop of [__iter__] *)

Section FramerMore.
Context {Event : Type} (ParseFromString : bytes → option Event).



(** The checksum stored after a length is not the checksum of the 8
    bytes that are read. *)
Lemma iter_bad_header (header : bytes) c rest :
  len header = 8 → u32 c → c ≠ _masked_crc32c header →
  EventsFileReader_iter ParseFromString
      (Blocking (header ++ pack fmt_I c ++ rest)) =
    stop (Raised (EventReadingError (InvalidChecksum c (_masked_crc32c header)))).
Proof.
  intros Hlen Hc Hneq.
  pose proof (EventsFileReader_iter_unfold ParseFromString
                (Blocking (header ++ pack fmt_I c ++ rest))) as E.
  unfold iter_body in E. cbn [calcsize] in E. rewrite <- Hlen in E at 1.
  rewrite _read_and_check_stored in E by (auto; intros ->; discriminate).
  rewrite bool_decide_eq_true_2 in E by exact Hneq.
  symmetry. apply (inj Some). exact E.
Qed.

(** Well-formed records at the head of a stream are read one after the
    other, and the loop goes on with what follows them. *)
Lemma iter_records payloads rest :
  Forall (λ p, p ≠ [] ∧ len p < 2 ^ 64 ∧ is_Some (ParseFromString p)) payloads →
  EventsFileReader_iter ParseFromString (Blocking (records payloads ++ rest)) =
    let r := EventsFileReader_iter ParseFromString (Blocking rest) in
    Reading (payloads ++ parsed r)
      (Run (omap ParseFromString payloads ++ yielded (events r)) (fate (events r))).
Proof.
  induction 1 as [|p ps (Hne & Hlen & ev & Hev) _ IH].
  - rewrite records_nil. simpl.
    destruct (EventsFileReader_iter _ _) as [? []]. reflexivity.
  - rewrite records_cons, <- app_assoc, iter_record by assumption.
    cbn [omap list_omap]. rewrite Hev, IH. reflexivity.
Qed.

(** What the reader hands to the parser are the payloads of well-formed
    records that stand one after the other from the start of the stream;
    the events are what the parser makes of them. *)
Lemma iter_sound (s : bytes) :
  let r := EventsFileReader_iter ParseFromString (Blocking s) in
  ∃ rest,
    s = records (parsed r) ++ rest
    ∧ Forall (λ p, p ≠ [] ∧ len p < 2 ^ 64) (parsed r)
    ∧ yielded (events r) = omap ParseFromString (parsed r)
    ∧ (fate (events r) = Exhausted →
         rest = [] ∧ Forall (λ p, is_Some (ParseFromString p)) (parsed r)).
Proof.
  remember (length s) as n eqn:Hn. revert s Hn.
  induction n as [n IH] using lt_wf_ind. intros s Hn.
  pose proof (EventsFileReader_iter_unfold ParseFromString (Blocking s)) as E.
  unfold iter_body in E.
  destruct (_read_and_check (calcsize fmt_Q) (Blocking s))
    as [[[header|] f1]|] eqn:E1.
  - apply _read_and_check_data in E1 as (Hlen & Hne & rest1 & [= Hs] & ->).
    rewrite unpack_length in E by exact Hlen.
    destruct (_read_and_check (le_to_Z header) (Blocking rest1))
      as [[[raw|] f2]|] eqn:E2.
    + apply _read_and_check_data in E2 as (Hlen2 & Hne2 & rest2 & [= Hr1] & ->).
      assert (Hhdr : pack fmt_Q (len raw) = header).
      { rewrite Hlen2. eapply unpack_Some. apply unpack_length, Hlen. }
      assert (Hbound : len raw < 2 ^ 64).
      { rewrite Hlen2. pose proof (le_to_Z_range header) as Hr.
        rewrite Hlen in Hr. cbn [calcsize] in Hr. lia. }
      assert (Hrec : s = record raw ++ rest2).
      { rewrite Hs, Hr1. unfold record, record_header. rewrite Hhdr.
        rewrite <- !app_assoc. reflexivity. }
      destruct (ParseFromString raw) as [ev|] eqn:Eparse.
      * apply (inj Some) in E. cbv zeta. rewrite <- E.
        destruct (IH (length rest2)) with (s := rest2)
          as (rest & Hrest & Hall & Hyield & Hend); [|reflexivity|].
        { rewrite Hn, Hrec, length_app, length_record. lia. }
        exists rest. cbn [parsed events yielded fate run_cons].
        repeat split.
        -- rewrite records_cons, <- app_assoc, <- Hrest. exact Hrec.
        -- constructor; auto.
        -- cbn [omap list_omap]. rewrite Eparse, Hyield. reflexivity.
        -- apply Hend. assumption.
        -- constructor; [eauto | apply Hend; assumption].
      * apply (inj Some) in E. cbv zeta. rewrite <- E.
        exists rest2. cbn [parsed events yielded fate].
        repeat split; try discriminate.
        -- rewrite records_cons, records_nil, app_nil_r. exact Hrec.
        -- repeat constructor; auto.
        -- cbn [omap list_omap]. rewrite Eparse. reflexivity.
    + apply (inj Some) in E. cbv zeta. rewrite <- E.
      exists s. repeat split; try discriminate. constructor.
    + apply (inj Some) in E. cbv zeta. rewrite <- E.
      exists s. repeat split; try discriminate. constructor.
  - apply (inj Some) in E. cbv zeta. rewrite <- E.
    apply _read_and_check_None in E1 as [[Hsz | ->] _]; [cbn in Hsz; lia|].
    exists []. repeat split; constructor.
  - apply (inj Some) in E. cbv zeta. rewrite <- E.
    exists s. repeat split; try discriminate. constructor.
Qed.

End FramerMore.

(** ** More on the decoders and the filters *)

Lemma elem_of_yielded_run_seq {A} (r1 r2 : run A) x :
  x ∈ yielded (run_seq r1 r2) → x ∈ yielded r1 ∨ x ∈ yielded r2.
Proof.
  rewrite yielded_run_seq, elem_of_app.
  destruct (fate r1); intros [H | H]; auto. inv H.
Qed.

Lemma fate_run_seq {A} (r1 r2 : run A) :
  fate (run_seq r1 r2) =
    match fate r1 with Exhausted => fate r2 | Raised e => Raised e end.
Proof. unfold run_seq. destruct (fate r1) eqn:E; [reflexivity | exact E]. Qed.

Lemma elem_of_omap_id_filter {A} (P : option A → Prop) `{∀ x, Decision (P x)}
    (l : list (option A)) (a : A) :
  a ∈ omap id (filter P l) ↔ Some a ∈ l ∧ P (Some a).
Proof.
  rewrite list_elem_of_omap. split.
  - intros (x & Hx & Hid). simpl in Hid. subst x.
    apply list_elem_of_filter in Hx. tauto.
  - intros [Hin HP]. exists (Some a). split; [|reflexivity].
    apply list_elem_of_filter. auto.
Qed.

Section SummaryReaderMore.
Context {float ndarray : Type}.
Context (imdecode : bytes → result (option ndarray)).
Context (ParseFromString : bytes → option (@Event float)).

Lemma getitem_DECODERS_Ok name decoder :
  getitem (_DECODERS (float:=float) imdecode) name = Ok decoder →
  (name = "scalar" ∧ decoder = _get_scalar)
  ∨ (name = "image" ∧ decoder = _get_image imdecode).
Proof.
  unfold _DECODERS. cbn [getitem].
  destruct (bool_decide ("scalar" = name)) eqn:E1.
  { apply bool_decide_eq_true in E1. intros [= <-]. auto. }
  destruct (bool_decide ("image" = name)) eqn:E2; [|discriminate].
  apply bool_decide_eq_true in E2. intros [= <-]. auto.
Qed.

Lemma type_list_of_valid logdir tag_filter type_filter self :
  SummaryReader_init (float:=float) imdecode logdir tag_filter type_filter = Ok self →
  Forall (λ name, name ∈ keys (_DECODERS (float:=float) imdecode))
         (type_list_of (float:=float) imdecode self).
Proof.
  unfold SummaryReader_init, _check_type_names, type_list_of.
  cbn [_type_filter].
  destruct type_filter as [names|]; cbn [fmap option_fmap option_map].
  - destruct (forallb _ _) eqn:E; [|discriminate]. intros [= <-].
    cbn [_type_filter]. apply Forall_forall. intros name Hin.
    rewrite forallb_forall in E. apply list_elem_of_In in Hin.
    apply E in Hin. apply bool_decide_eq_true in Hin. exact Hin.
  - intros [= <-]. cbn [_type_filter]. apply Forall_forall. auto.
Qed.

Lemma decode_value_decoded type_list (event : @Event float) v :
  Forall (λ name, name ∈ keys (_DECODERS (float:=float) imdecode)) type_list →
  decode_value imdecode type_list event v = decoded imdecode type_list event v.
Proof.
  intros Hvalid. unfold decoded.
  induction Hvalid as [|name type_list Hname _ IH].
  { simpl. destruct (value_value v) as [x|enc| |]; reflexivity. }
  cbn [decode_value].
  apply elem_of_keys_DECODERS in Hname as [-> | ->].
  - rewrite getitem_scalar. unfold _get_scalar at 1.
    destruct (value_value v) as [x|enc| |] eqn:Ev.
    + rewrite bool_decide_eq_true_2 by (left; reflexivity). reflexivity.
    + cbn [is_None negb]. rewrite IH.
      destruct (bool_decide ("image" ∈ type_list)) eqn:E.
      * apply bool_decide_eq_true in E.
        rewrite bool_decide_eq_true_2 by (right; exact E). reflexivity.
      * apply bool_decide_eq_false in E. rewrite bool_decide_eq_false_2; [reflexivity|].
        intros Hin. apply elem_of_cons in Hin as [Hin | Hin]; [discriminate | auto].
    + cbn [is_None negb]. exact IH.
    + cbn [is_None negb]. exact IH.
  - rewrite getitem_image. unfold _get_image at 1.
    destruct (value_value v) as [x|enc| |] eqn:Ev.
    + cbn [is_None negb]. rewrite IH.
      destruct (bool_decide ("scalar" ∈ type_list)) eqn:E.
      * apply bool_decide_eq_true in E.
        rewrite bool_decide_eq_true_2 by (right; exact E). reflexivity.
      * apply bool_decide_eq_false in E. rewrite bool_decide_eq_false_2; [reflexivity|].
        intros Hin. apply elem_of_cons in Hin as [Hin | Hin]; [discriminate | auto].
    + rewrite bool_decide_eq_true_2 by (left; reflexivity).
      destruct (imdecode enc) as [[data|]|e]; cbn [is_None negb]; try reflexivity.
      rewrite IH.
      destruct (bool_decide ("image" ∈ type_list)); reflexivity.
    + cbn [is_None negb]. exact IH.
    + cbn [is_None negb]. exact IH.
Qed.

(** *** Where an item comes from *)

Lemma elem_of_decode_values type_list (event : @Event float) values item :
  Some item ∈ yielded (decode_values imdecode type_list event values) →
  ∃ v, v ∈ values ∧ Some item ∈ yielded (decode_value imdecode type_list event v).
Proof.
  induction values as [|v values IH]; cbn [decode_values].
  { intros H. inv H. }
  intros H. apply elem_of_yielded_run_seq in H as [H | H].
  - exists v. split; [left | exact H].
  - destruct (IH H) as (v' & Hin & Hv'). exists v'. split; [right; exact Hin | exact Hv'].
Qed.

Lemma elem_of_decode_event type_list (event : @Event float) item :
  Some item ∈ yielded (decode_event imdecode type_list event) →
  ∃ v, v ∈ summary_value event
       ∧ Some item ∈ yielded (decode_value imdecode type_list event v).
Proof.
  unfold decode_event. intros H. apply elem_of_yielded_run_seq in H as [H | H].
  - destruct (negb _); cbn [yielded] in H.
    + apply list_elem_of_singleton in H. discriminate.
    + inv H.
  - apply elem_of_decode_values, H.
Qed.

Lemma elem_of_decode_each type_list (events : list (@Event float))
    end_of_events item :
  Some item ∈ yielded (decode_each imdecode type_list events end_of_events) →
  ∃ event v, event ∈ events ∧ v ∈ summary_value event
             ∧ Some item ∈ yielded (decode_value imdecode type_list event v).
Proof.
  induction events as [|event events IH]; cbn [decode_each].
  { intros H. inv H. }
  intros H. apply elem_of_yielded_run_seq in H as [H | H].
  - apply elem_of_decode_event in H as (v & Hv & H).
    exists event, v. split; [left | auto].
  - destruct (IH H) as (event' & v & Hin & Hv & H').
    exists event', v. split; [right; exact Hin | auto].
Qed.

Lemma elem_of_items_of_file self f item :
  item ∈ yielded (items_of_file imdecode ParseFromString self f) ↔
  Some item ∈ yielded (_decode_events imdecode self
                         (events (EventsFileReader_iter ParseFromString f)))
  ∧ keep self (Some item) = true.
Proof.
  unfold items_of_file. cbn [yielded].
  rewrite elem_of_omap_id_filter. rewrite Is_true_true. reflexivity.
Qed.

Lemma elem_of_scan self files item :
  item ∈ yielded (scan imdecode ParseFromString self files) →
  ∃ file, file ∈ files
          ∧ item ∈ yielded (items_of_file imdecode ParseFromString self
                              (open_rb file.2)).
Proof.
  induction files as [|file files IH]; cbn [scan].
  { intros H. inv H. }
  intros H. apply elem_of_yielded_run_seq in H as [H | H].
  - exists file. split; [left | exact H].
  - destruct (IH H) as (file' & Hin & H'). exists file'. split; [right; exact Hin | exact H'].
Qed.
End SummaryReaderMore.

(** ** Errors of the extraction and the tag filter *)

Section SummaryReaderErrors.
Context {float ndarray : Type}.
Context (imdecode : bytes → result (option ndarray)).
Context (ParseFromString : bytes → option (@Event float)).

Lemma decoded_ext type_list type_list' (event : @Event float) v :
  (∀ name, name ∈ type_list ↔ name ∈ type_list') →
  decoded imdecode type_list event v = decoded imdecode type_list' event v.
Proof.
  intros H. unfold decoded.
  rewrite (bool_decide_ext _ _ (H "scalar")), (bool_decide_ext _ _ (H "image")).
  reflexivity.
Qed.

Lemma fate_decoded type_list (event : @Event float) v e :
  fate (decoded imdecode type_list event v) = Raised e →
  ∃ encoded, value_value v = image encoded ∧ imdecode encoded = Raise e.
Proof.
  unfold decoded. destruct (value_value v) as [x|enc| |]; cbn.
  - destruct (bool_decide _); discriminate.
  - destruct (bool_decide _); [|discriminate].
    destruct (imdecode enc) as [[data|]|e'] eqn:E; try discriminate.
    intros [= <-]. eauto.
  - discriminate.
  - discriminate.
Qed.

Lemma fate_decode_values type_list (event : @Event float) values e :
  Forall (λ name, name ∈ keys (_DECODERS (float:=float) imdecode)) type_list →
  fate (decode_values imdecode type_list event values) = Raised e →
  ∃ encoded, imdecode encoded = Raise e.
Proof.
  intros Hvalid. induction values as [|v values IH]; cbn [decode_values].
  { discriminate. }
  rewrite fate_run_seq, decode_value_decoded by exact Hvalid.
  destruct (fate (decoded imdecode type_list event v)) as [|e'] eqn:E; [exact IH|].
  intros [= <-]. apply fate_decoded in E as (enc & _ & H). eauto.
Qed.

Lemma fate_decode_each type_list (events : list (@Event float)) end_of_events e :
  Forall (λ name, name ∈ keys (_DECODERS (float:=float) imdecode)) type_list →
  fate (decode_each imdecode type_list events end_of_events) = Raised e →
  end_of_events = Raised e ∨ ∃ encoded, imdecode encoded = Raise e.
Proof.
  intros Hvalid. induction events as [|event events IH]; cbn [decode_each].
  { cbn. auto. }
  rewrite fate_run_seq. unfold decode_event at 1. rewrite fate_run_seq.
  replace (fate (if negb (bool_decide (is_Some (event_summary event)))
                 then Run [None] Exhausted else Run [] Exhausted))
    with Exhausted by (destruct (negb _); reflexivity).
  destruct (fate (decode_values imdecode type_list event (summary_value event)))
    as [|e'] eqn:E; [exact IH|].
  intros [= <-]. right. eapply fate_decode_values; eassumption.
Qed.

Lemma run_seq_filter {A} (P : A → Prop) `{∀ x, Decision (P x)} (r1 r2 : run A) :
  run_seq (Run (filter P (yielded r1)) (fate r1))
          (Run (filter P (yielded r2)) (fate r2)) =
    Run (filter P (yielded (run_seq r1 r2))) (fate (run_seq r1 r2)).
Proof.
  unfold run_seq. cbn [fate yielded].
  destruct r1 as [y1 [|e]]; cbn [fate yielded]; [|reflexivity].
  rewrite filter_app. reflexivity.
Qed.

Lemma keep_without_tag_filter self (item : @SummaryItem float ndarray) :
  keep self (Some item) =
    _check_tag self (tag item) && keep (without_tag_filter self) (Some item).
Proof. reflexivity. Qed.

Lemma items_of_file_tag_filter self f :
  items_of_file imdecode ParseFromString self f =
    let r := items_of_file imdecode ParseFromString (without_tag_filter self) f in
    Run (filter (λ item, _check_tag self (tag item)) (yielded r)) (fate r).
Proof.
  unfold items_of_file. cbn [yielded fate]. f_equal.
  change (_decode_events imdecode (without_tag_filter self))
    with (_decode_events (float:=float) imdecode self).
  generalize (yielded (_decode_events imdecode self
                (events (EventsFileReader_iter ParseFromString f)))).
  intros l. induction l as [|[item|] l IH]; [reflexivity| |].
  - rewrite !filter_cons, keep_without_tag_filter.
    destruct (_check_tag self (tag item)) eqn:Etag;
      destruct (keep (without_tag_filter self) (Some item)) eqn:Ekeep;
      cbn [andb]; repeat case_decide; try (exfalso; auto; fail);
      cbn [omap list_omap id]; rewrite ?filter_cons, ?Etag;
      repeat case_decide; try (exfalso; auto; fail); rewrite IH; reflexivity.
  - rewrite !filter_cons. cbn [keep]. repeat case_decide; try (exfalso; auto; fail).
    exact IH.
Qed.

Lemma scan_tag_filter self files :
  scan imdecode ParseFromString self files =
    let r := scan imdecode ParseFromString (without_tag_filter self) files in
    Run (filter (λ item, _check_tag self (tag item)) (yielded r)) (fate r).
Proof.
  induction files as [|file files IH]; [reflexivity|].
  cbn [scan]. rewrite IH, items_of_file_tag_filter. cbv zeta.
  apply run_seq_filter.
Qed.
End SummaryReaderErrors.

(** * Further properties *)

(** ** Reading and checking *)



(** X2: data that [_read_and_check] returns have been checked: they are
    the next [size] bytes of the stream, at least one, the four bytes
    after them are their masked checksum, and the stream has moved past
    both. *)
Theorem checked_data_carry_their_checksum (size : Z) (f f' : BinaryIO) (data : bytes) :
  _read_and_check size f = Ok (Some data, f') →
  len data = size ∧ data ≠ []
  ∧ ∃ rest, f = Blocking (data ++ pack fmt_I (_masked_crc32c data) ++ rest)
            ∧ f' = Blocking rest.
Proof. apply _read_and_check_data. Qed.

Lemma checked_data_carry_their_checksum_witness :
  ∃ rest, Blocking (record [x61]) =
            Blocking (pack fmt_Q 1 ++ pack fmt_I (_masked_crc32c (pack fmt_Q 1)) ++ rest)
          ∧ Blocking ([x61] ++ pack fmt_I (_masked_crc32c [x61])) = Blocking rest.
Proof.
  destruct (checked_data_carry_their_checksum 8 (Blocking (record [x61]))
              (Blocking ([x61] ++ pack fmt_I (_masked_crc32c [x61])))
              (pack fmt_Q 1)) as (_ & _ & H).
  - vm_compute. reflexivity.
  - exact H.
Defined.

(** X3: the four bytes stored after the data decide: [_read_and_check]
    returns the data when their little-endian value is the masked
    checksum of the data, and raises 'Invalid checksum' with the two
    values otherwise. *)
Theorem stored_checksum_decides (data raw rest : bytes) :
  data ≠ [] → len raw = 4 →
  _read_and_check (len data) (Blocking (data ++ raw ++ rest)) =
    if decide (le_to_Z raw = _masked_crc32c data)
    then Ok (Some data, Blocking rest)
    else Raise (EventReadingError
                  (InvalidChecksum (le_to_Z raw) (_masked_crc32c data))).
Proof.
  intros Hne Hlen.
  assert (Hraw : pack fmt_I (le_to_Z raw) = raw).
  { eapply unpack_Some. apply unpack_length. exact Hlen. }
  assert (Hu : u32 (le_to_Z raw)).
  { pose proof (le_to_Z_range raw) as H. rewrite Hlen in H. exact H. }
  rewrite <- Hraw at 1. rewrite _read_and_check_stored by assumption.
  destruct (decide (le_to_Z raw = _masked_crc32c data)) as [Heq | Hneq].
  - rewrite bool_decide_eq_false_2 by auto. reflexivity.
  - rewrite bool_decide_eq_true_2 by auto. reflexivity.
Qed.

Lemma stored_checksum_decides_witness :
  _read_and_check 1 (Blocking ([x61] ++ [x00; x00; x00; x00] ++ [x62])) =
    Raise (EventReadingError (InvalidChecksum 0 (_masked_crc32c [x61]))).
Proof.
  pose proof (stored_checksum_decides [x61] [x00; x00; x00; x00] [x62]
                ltac:(discriminate) eq_refl) as H.
  vm_compute in H. vm_compute. exact H.
Defined.

(** ** The sequence of records *)

(** X4: whatever the stream, the byte strings handed to the parser are
    the payloads of well-formed records that stand one after the other
    from the first byte of the stream, each of at least one byte and of
    fewer than [2^64]; the events yielded are what the parser made of
    them, in the same order. *)
Theorem parsed_payloads_are_records
    {Event : Type} (ParseFromString : bytes → option Event) (s : bytes) :
  let r := EventsFileReader_iter ParseFromString (Blocking s) in
  records (parsed r) `prefix_of` s
  ∧ Forall (λ p, p ≠ [] ∧ len p < 2 ^ 64) (parsed r)
  ∧ yielded (events r) = omap ParseFromString (parsed r).
Proof.
  destruct (iter_sound ParseFromString s) as (rest & Hs & Hall & Hy & _).
  repeat split; [exists rest; exact Hs | exact Hall | exact Hy].
Qed.

(** X5: the reader ends without error exactly on the streams that are
    well-formed records from the first byte to the last, each with a
    payload of at least one byte that the parser accepts. *)
Theorem clean_end_iff_whole_records
    {Event : Type} (ParseFromString : bytes → option Event) (s : bytes) :
  fate (events (EventsFileReader_iter ParseFromString (Blocking s))) = Exhausted
  ↔ ∃ payloads,
      s = records payloads
      ∧ Forall (λ p, p ≠ [] ∧ len p < 2 ^ 64 ∧ is_Some (ParseFromString p)) payloads.
Proof.
  split.
  - intros Hend.
    destruct (iter_sound ParseFromString s) as (rest & Hs & Hall & _ & H).
    destruct (H Hend) as [-> Hparse]. rewrite app_nil_r in Hs.
    eexists. split; [exact Hs|].
    apply Forall_forall. intros p Hp.
    rewrite Forall_forall in Hall, Hparse.
    destruct (Hall p Hp). auto.
  - intros (payloads & -> & Hall).
    rewrite <- (app_nil_r (records payloads)).
    rewrite iter_records by exact Hall. reflexivity.
Qed.

(** X6: a stream yields no more events than its length allows: every
    event has taken a record of at least 17 bytes. *)
Theorem events_bounded_by_length
    {Event : Type} (ParseFromString : bytes → option Event) (s : bytes) :
  (17 * length (yielded (events (EventsFileReader_iter ParseFromString (Blocking s))))
     ≤ length s)%nat.
Proof.
  destruct (iter_sound ParseFromString s) as (rest & Hs & Hall & Hy & _).
  rewrite Hy. rewrite Hs at 2. rewrite length_app.
  pose proof (length_omap_le ParseFromString
                (parsed (EventsFileReader_iter ParseFromString (Blocking s)))) as Hle.
  pose proof (length_records_ge _ Hall).
  lia.
Qed.






(** X9: a length whose stored bytes had one bit inverted is found out
    before it is used: whatever follows its checksum, the reader raises
    'Invalid checksum' on the header, and neither reads a payload nor
    calls the parser. *)
Theorem length_bit_flip_detected
    {Event : Type} (ParseFromString : bytes → option Event)
    (payload rest : bytes) (i : nat) :
  (i < 64)%nat →
  let length_bytes := pack fmt_Q (len payload) in
  let stored := _masked_crc32c length_bytes in
  let computed := _masked_crc32c (flip_payload_bit i length_bytes) in
  stored ≠ computed
  ∧ EventsFileReader_iter ParseFromString
        (Blocking (flip_payload_bit i length_bytes ++ pack fmt_I stored ++ rest)) =
      Reading [] (Run [] (Raised (EventReadingError (InvalidChecksum stored computed)))).
Proof.
  intros Hi length_bytes stored computed.
  assert (Hneq : stored ≠ computed).
  { apply flip_payload_bit_checksum. unfold length_bytes.
    rewrite length_pack. simpl. lia. }
  split; [exact Hneq|].
  apply iter_bad_header; [| apply _masked_crc32c_range | exact Hneq].
  rewrite len_flip_payload_bit. apply len_pack.
Qed.

Lemma length_bit_flip_detected_witness :
  _masked_crc32c (pack fmt_Q (len [x61]))
    ≠ _masked_crc32c (flip_payload_bit 3 (pack fmt_Q (len [x61]))).
Proof.
  apply (length_bit_flip_detected (λ b : bytes, Some b) [x61] [] 3). lia.
Defined.

(** X10: reading composes.  After well-formed records whose payloads the
    parser accepts, the reader behaves on the rest of the stream as it
    would on that rest alone: the payloads and events of the records come
    first, then what the rest gives, with the end that the rest gives. *)
Theorem records_then_rest
    {Event : Type} (ParseFromString : bytes → option Event)
    (payloads : list bytes) (rest : bytes) :
  Forall (λ p, p ≠ [] ∧ len p < 2 ^ 64 ∧ is_Some (ParseFromString p)) payloads →
  let r := EventsFileReader_iter ParseFromString (Blocking rest) in
  EventsFileReader_iter ParseFromString (Blocking (records payloads ++ rest)) =
    Reading (payloads ++ parsed r)
      (Run (omap ParseFromString payloads ++ yielded (events r)) (fate (events r))).
Proof. apply iter_records. Qed.

Lemma records_then_rest_witness :
  EventsFileReader_iter (λ b : bytes, Some b)
      (Blocking (records [[x61]; [x62]] ++ corrupted_record 0 [x63])) =
    Reading [[x61]; [x62]]
      (Run [[x61]; [x62]]
           (Raised (EventReadingError
              (InvalidChecksum (_masked_crc32c [x63])
                               (_masked_crc32c (flip_payload_bit 0 [x63])))))).
Proof.
  rewrite (records_then_rest (λ b : bytes, Some b) [[x61]; [x62]]
             (corrupted_record 0 [x63])).
  - vm_compute. reflexivity.
  - repeat constructor; try discriminate; try (vm_compute; reflexivity);
      eexists; reflexivity.
Defined.

(** X11: a payload that the parser rejects ends the reading with
    [DecodeError]: the events of the records before it have been yielded,
    the payload itself was handed to the parser, and nothing that follows
    its record is looked at. *)
Theorem rejected_payload_stops_reading
    {Event : Type} (ParseFromString : bytes → option Event)
    (payloads : list bytes) (payload rest : bytes) :
  Forall (λ p, p ≠ [] ∧ len p < 2 ^ 64 ∧ is_Some (ParseFromString p)) payloads →
  payload ≠ [] → len payload < 2 ^ 64 →
  ParseFromString payload = None →
  EventsFileReader_iter ParseFromString
      (Blocking (records payloads ++ record payload ++ rest)) =
    Reading (payloads ++ [payload])
      (Run (omap ParseFromString payloads) (Raised DecodeError)).
Proof.
  intros Hall Hne Hlen Hnone.
  rewrite iter_records by exact Hall.
  rewrite iter_record, Hnone by assumption.
  cbn [parsed events yielded fate]. rewrite app_nil_r. reflexivity.
Qed.

Lemma rejected_payload_stops_reading_witness :
  EventsFileReader_iter
      (λ b : bytes, if Nat.eqb (length b) 2 then None else Some b)
      (Blocking (records [[x61]] ++ record [x62; x63] ++ [x00])) =
    Reading [[x61]; [x62; x63]] (Run [[x61]] (Raised DecodeError)).
Proof.
  apply (rejected_payload_stops_reading
           (λ b : bytes, if Nat.eqb (length b) 2 then None else Some b)
           [[x61]] [x62; x63] [x00]).
  - repeat constructor; try discriminate; try (vm_compute; reflexivity).
    eexists; reflexivity.
  - discriminate.
  - vm_compute. reflexivity.
  - reflexivity.
Defined.

(** ** The checksum *)

(** X12: the mask loses nothing of the checksum: two byte strings have
    the same masked checksum exactly when they have the same CRC-32C. *)
Theorem masked_checksum_keeps_crc (data1 data2 : bytes) :
  _masked_crc32c data1 = _masked_crc32c data2 ↔ crc32c data1 = crc32c data2.
Proof.
  split; [apply _masked_crc32c_crc|].
  intros H. rewrite !_masked_crc32c_rot, H. reflexivity.
Qed.

(** X13: two byte strings that differ in one byte only, by whatever bits
    of it, never have the same masked checksum. *)
Theorem one_byte_change_detected (before after : bytes) (b1 b2 : byte) :
  b1 ≠ b2 →
  _masked_crc32c (before ++ b1 :: after) ≠ _masked_crc32c (before ++ b2 :: after).
Proof.
  intros Hneq E. apply Hneq.
  apply _masked_crc32c_crc, Crc32cFacts.crc32_one_byte in E. exact E.
Qed.

Lemma one_byte_change_detected_witness :
  _masked_crc32c ([x61] ++ x62 :: [x63]) ≠ _masked_crc32c ([x61] ++ xff :: [x63]).
Proof. apply (one_byte_change_detected [x61] [x63] x62 xff). discriminate. Defined.

(** ** Decoding *)

(** X14: what a value gives, when the type names in use are names of
    decoders.  A scalar value gives one item of type "scalar" with its
    number when "scalar" is in use; an image value gives one item of type
    "image" with the decoded array when "image" is in use and the codec
    returns an array, the exception of the codec when it raises, and no
    item when it returns none; every other case gives no item.  The two
    decoders never both return a value. *)
Theorem value_decoding
    {float ndarray : Type} (imdecode : bytes → result (option ndarray))
    (type_list : list string) (event : @Event float) (v : Value) :
  Forall (λ name, name ∈ keys (_DECODERS (float:=float) imdecode)) type_list →
  decode_value imdecode type_list event v = decoded imdecode type_list event v
  ∧ (_get_scalar (ndarray:=ndarray) v = Ok PyNone
     ∨ _get_image imdecode v = Ok PyNone).
Proof.
  intros Hvalid. split; [apply decode_value_decoded, Hvalid|].
  unfold _get_scalar, _get_image. destruct (value_value v); auto.
Qed.

Lemma value_decoding_witness :
  decode_value no_codec ["image"; "scalar"] image_event
      {| value_tag := "loss"; value_value := simple_value 5 |} =
    Run [Some {| tag := "loss"; step := 1; wall_time := 0;
                 value := PyFloat 5; type := "scalar" |}] Exhausted.
Proof.
  destruct (value_decoding no_codec ["image"; "scalar"] image_event
              {| value_tag := "loss"; value_value := simple_value 5 |}) as [H _].
  - repeat constructor.
  - rewrite H. reflexivity.
Defined.

(** X15: the order in which the type names are gone through is of no
    consequence: two lists of decoder names with the same members give
    the same items and the same end, whatever the events. *)
Theorem type_order_irrelevant
    {float ndarray : Type} (imdecode : bytes → result (option ndarray))
    (type_list type_list' : list string)
    (events : list (@Event float)) (end_of_events : outcome) :
  Forall (λ name, name ∈ keys (_DECODERS (float:=float) imdecode)) type_list →
  Forall (λ name, name ∈ keys (_DECODERS (float:=float) imdecode)) type_list' →
  (∀ name, name ∈ type_list ↔ name ∈ type_list') →
  decode_each imdecode type_list events end_of_events =
    decode_each imdecode type_list' events end_of_events.
Proof.
  intros Hv Hv' Hsame.
  assert (Hvalues : ∀ (event : @Event float) values,
            decode_values imdecode type_list event values =
              decode_values imdecode type_list' event values).
  { intros event values. induction values as [|v values IH]; [reflexivity|].
    cbn [decode_values]. rewrite IH, !decode_value_decoded by assumption.
    rewrite (decoded_ext imdecode type_list type_list') by exact Hsame.
    reflexivity. }
  induction events as [|event events IH]; [reflexivity|].
  cbn [decode_each]. unfold decode_event. rewrite IH, Hvalues. reflexivity.
Qed.

Lemma type_order_irrelevant_witness :
  decode_each no_codec ["scalar"; "image"] [image_event] Exhausted =
    decode_each no_codec ["image"; "scalar"; "image"] [image_event] Exhausted.
Proof.
  apply (type_order_irrelevant no_codec ["scalar"; "image"]
           ["image"; "scalar"; "image"] [image_event] Exhausted).
  - repeat constructor.
  - repeat constructor.
  - intros name. rewrite !elem_of_cons, elem_of_nil. tauto.
Defined.

(** ** The output of [SummaryReader] *)

(** X16: every item of the output comes from a value of an event of a
    regular file of the directory: its tag is the tag of the value, its
    step and wall time are those of the event, and either its type is
    "scalar" and its value the number of the value, or its type is
    "image" and its value the array that the codec returned for the
    encoded image of the value. *)
Theorem item_provenance
    {float ndarray : Type} (imdecode : bytes → result (option ndarray))
    (ParseFromString : bytes → option (@Event float))
    (self : SummaryReader) (fs : FileSystem) (item : SummaryItem) :
  item ∈ yielded (SummaryReader_iter imdecode ParseFromString self fs) →
  ∃ file event v,
    file ∈ fs (_logdir self) ∧ is_file file.2 = true
    ∧ event ∈ yielded (events (EventsFileReader_iter ParseFromString (open_rb file.2)))
    ∧ v ∈ summary_value event
    ∧ tag item = value_tag v
    ∧ step item = event_step event
    ∧ wall_time item = event_wall_time event
    ∧ ((type item = "scalar"
        ∧ ∃ x, value_value v = simple_value x ∧ value item = PyFloat x)
       ∨ (type item = "image"
          ∧ ∃ encoded data, value_value v = image encoded
                            ∧ imdecode encoded = Ok (Some data)
                            ∧ value item = PyArray data)).
Proof.
  unfold SummaryReader_iter. intros Hin.
  apply elem_of_scan in Hin as (file & Hfile & Hin).
  apply elem_of_items_of_file in Hin as [Hin _].
  apply elem_of_decode_each in Hin as (event & v & Hevent & Hv & Hin).
  apply decode_value_item in Hin
    as (_ & Hnone & Htag & Hstep & Hwall & _ & _ & decoder & _ & _ & Hget & Hdec).
  rewrite log_files_Permutation in Hfile.
  apply list_elem_of_filter in Hfile as [Hisfile Hfile].
  exists file, event, v. repeat (split; [assumption || (apply Is_true_true; assumption)|]).
  apply getitem_DECODERS_Ok in Hget as [[Ht ->] | [Ht ->]].
  - left. split; [exact Ht|]. unfold _get_scalar in Hdec.
    destruct (value_value v) as [x|enc| |]; injection Hdec as Hdec;
      try (symmetry in Hdec; contradiction).
    exists x. auto.
  - right. split; [exact Ht|]. unfold _get_image in Hdec.
    destruct (value_value v) as [x|enc| |];
      try (injection Hdec as Hdec; symmetry in Hdec; contradiction).
    destruct (imdecode enc) as [[data|]|e] eqn:E; try discriminate;
      injection Hdec as Hdec; [|symmetry in Hdec; contradiction].
    exists enc, data. auto.
Qed.

Lemma item_provenance_witness :
  ∃ file : string * node, file ∈ one_file "logs" ∧ is_file file.2 = true.
Proof.
  destruct (item_provenance (λ b : bytes, Ok (Some b)) (λ _, Some image_event)
              plain_reader one_file
              {| tag := "img"; step := 1; wall_time := 0;
                 value := PyArray [x00]; type := "image" |})
    as (file & _ & _ & Hfile & Hisfile & _).
  - vm_compute. left.
  - exists file. split; assumption.
Defined.

(** X17: the filters are obeyed: the tag of every item of the output is
    in the tag filter when there is one, and its type is in the type
    filter when there is one. *)
Theorem output_obeys_filters
    {float ndarray : Type} (imdecode : bytes → result (option ndarray))
    (ParseFromString : bytes → option (@Event float))
    (self : SummaryReader) (fs : FileSystem) (item : SummaryItem) :
  item ∈ yielded (SummaryReader_iter imdecode ParseFromString self fs) →
  (∀ tag_filter, _tag_filter self = Some tag_filter → tag item ∈ tag_filter)
  ∧ (∀ type_filter, _type_filter self = Some type_filter → type item ∈ type_filter).
Proof.
  unfold SummaryReader_iter. intros Hin.
  apply elem_of_scan in Hin as (file & _ & Hin).
  apply elem_of_items_of_file in Hin as [_ Hkeep].
  unfold keep, _check_tag, _check_type in Hkeep.
  apply andb_true_iff in Hkeep as [Htag Htype]. split.
  - intros tag_filter H. rewrite H in Htag.
    apply bool_decide_eq_true in Htag. exact Htag.
  - intros type_filter H. rewrite H in Htype.
    apply bool_decide_eq_true in Htype. exact Htype.
Qed.

Lemma output_obeys_filters_witness :
  "a" ∈ ({["a"]} : gset string).
Proof.
  destruct (output_obeys_filters no_codec tag_event
              {| _logdir := "logs"; _tag_filter := Some {["a"]}; _type_filter := None |}
              two_files
              {| tag := "a"; step := 97; wall_time := 0;
                 value := PyFloat 1; type := "scalar" |}) as [H _].
  - vm_compute. left.
  - apply H. reflexivity.
Defined.

(** X18: the type filter never removes an item in [__iter__]: the items
    that [_decode_events] yields already have a type of the filter, the
    decoders of the other types not having been tried.  What is kept of
    them is decided by the tag filter alone. *)
Theorem type_check_never_drops
    {float ndarray : Type} (imdecode : bytes → result (option ndarray))
    (self : SummaryReader) (events : run (@Event float)) (item : SummaryItem) :
  Some item ∈ yielded (_decode_events imdecode self events) →
  _check_type self (type item) = true
  ∧ keep self (Some item) = _check_tag self (tag item).
Proof.
  intros Hin.
  assert (Htype : _check_type self (type item) = true).
  { unfold _decode_events in Hin.
    apply elem_of_decode_each in Hin as (event & v & _ & _ & Hin).
    apply decode_value_item in Hin
      as (_ & _ & _ & _ & _ & before & after & _ & Hlist & _).
    unfold _check_type. destruct (_type_filter self) as [type_filter|]; [|reflexivity].
    apply bool_decide_eq_true_2, elem_of_elements. rewrite Hlist.
    apply elem_of_app. right. left. }
  split; [exact Htype|]. unfold keep. rewrite Htype. apply andb_true_r.
Qed.

Lemma type_check_never_drops_witness :
  _check_type {| _logdir := "logs"; _tag_filter := None;
                 _type_filter := Some {["image"]} |} "image" = true.
Proof.
  apply (type_check_never_drops (λ b : bytes, Ok (Some b))
           {| _logdir := "logs"; _tag_filter := None;
              _type_filter := Some {["image"]} |}
           (Run [image_event] Exhausted)
           {| tag := "img"; step := 1; wall_time := 0;
              value := PyArray [x00]; type := "image" |}).
  vm_compute. left.
Defined.

(** X19: a tag filter only selects.  The output of a reader with a tag
    filter is the output of the same reader without it, from which the
    items with a tag outside the filter are removed; the order of the
    others is kept, and the scan ends in the same way, with the same
    error if any. *)
Theorem tag_filter_selects
    {float ndarray : Type} (imdecode : bytes → result (option ndarray))
    (ParseFromString : bytes → option (@Event float))
    (self : SummaryReader) (fs : FileSystem) :
  let unfiltered :=
    SummaryReader_iter imdecode ParseFromString (without_tag_filter self) fs in
  SummaryReader_iter imdecode ParseFromString self fs =
    Run (filter (λ item, _check_tag self (tag item)) (yielded unfiltered))
        (fate unfiltered).
Proof. unfold SummaryReader_iter. apply scan_tag_filter. Qed.

(** X20: no file is read after one that failed: when the scan of the
    first files of the sorted list ends with an exception, that is the
    whole output, whatever the later files hold. *)
Theorem failed_file_ends_scan
    {float ndarray : Type} (imdecode : bytes → result (option ndarray))
    (ParseFromString : bytes → option (@Event float))
    (self : SummaryReader) (fs : FileSystem)
    (earlier later : list (string * node)) (e : exn) :
  log_files self fs = earlier ++ later →
  fate (scan imdecode ParseFromString self earlier) = Raised e →
  SummaryReader_iter imdecode ParseFromString self fs =
    scan imdecode ParseFromString self earlier
  ∧ fate (SummaryReader_iter imdecode ParseFromString self fs) = Raised e.
Proof.
  intros Hfiles Hfate. unfold SummaryReader_iter.
  rewrite Hfiles, scan_app. unfold run_seq. rewrite Hfate. auto.
Qed.

Lemma failed_file_ends_scan_witness :
  let broken : FileSystem := λ _,
    [("a", RegularFile 0 [x01]); ("b", RegularFile 0 (record [x62]))] in
  SummaryReader_iter no_codec tag_event plain_reader broken =
    Run [] (Raised (EventReadingError ShortRead)).
Proof.
  intros broken.
  destruct (failed_file_ends_scan no_codec tag_event plain_reader broken
              [("a", RegularFile 0 [x01])] [("b", RegularFile 0 (record [x62]))]
              (EventReadingError ShortRead)) as [H _].
  - vm_compute. reflexivity.
  - vm_compute. reflexivity.
  - rewrite H. vm_compute. reflexivity.
Defined.

(** X21: events that carry no value, with a summary or without one,
    give no item and stop nothing: when no event of a file carries a
    value, no item is decoded and the extraction ends as the reading of
    the events ends. *)
Theorem events_without_values
    {float ndarray : Type} (imdecode : bytes → result (option ndarray))
    (self : SummaryReader) (events : run (@Event float)) :
  Forall (λ event, summary_value event = []) (yielded events) →
  omap id (yielded (_decode_events imdecode self events)) = []
  ∧ fate (_decode_events imdecode self events) = fate events.
Proof.
  unfold _decode_events. destruct events as [evs end_of_events].
  cbn [yielded fate]. generalize (type_list_of (float:=float) imdecode self).
  unfold type_list_of. intros _.
  induction 1 as [|event evs Hnil _ [IH1 IH2]]; [auto|].
  cbn [decode_each]. unfold decode_event. rewrite Hnil. cbn [decode_values].
  rewrite yielded_run_seq, !fate_run_seq.
  destruct (negb _); cbn [fate yielded run_seq app omap list_omap id];
    rewrite ?omap_app; cbn [omap list_omap id app]; auto.
Qed.

Lemma events_without_values_witness :
  omap id (yielded (_decode_events no_codec plain_reader
    (Run [{| event_wall_time := 0; event_step := 1; event_summary := None |};
          {| event_wall_time := 0; event_step := 2; event_summary := Some [] |}]
         (Raised DecodeError)))) = []
  ∧ fate (_decode_events (float:=Z) no_codec plain_reader
    (Run [{| event_wall_time := 0; event_step := 1; event_summary := None |};
          {| event_wall_time := 0; event_step := 2; event_summary := Some [] |}]
         (Raised DecodeError))) = Raised DecodeError.
Proof.
  apply (events_without_values no_codec plain_reader
    (Run [{| event_wall_time := 0; event_step := 1; event_summary := None |};
          {| event_wall_time := 0; event_step := 2; event_summary := Some [] |}]
         (Raised DecodeError))).
  repeat constructor.
Defined.

(** X22: for a reader that its constructor accepted, the exception that
    ends the scan of a file is the one that ended the reading of its
    events, or one that the image codec raised: the extraction and the
    filters raise nothing of their own, and no [KeyError] comes from the
    table of decoders. *)
Theorem scan_error_sources
    {float ndarray : Type} (imdecode : bytes → result (option ndarray))
    (ParseFromString : bytes → option (@Event float))
    (logdir : string) (tag_filter type_filter : option (list string))
    (self : SummaryReader) (f : BinaryIO) (e : exn) :
  SummaryReader_init (float:=float) imdecode logdir tag_filter type_filter = Ok self →
  fate (items_of_file imdecode ParseFromString self f) = Raised e →
  fate (events (EventsFileReader_iter ParseFromString f)) = Raised e
  ∨ ∃ encoded, imdecode encoded = Raise e.
Proof.
  intros Hinit. unfold items_of_file, _decode_events. cbn [fate].
  apply fate_decode_each.
  exact (type_list_of_valid imdecode logdir tag_filter type_filter self Hinit).
Qed.

Lemma scan_error_sources_witness :
  fate (events (EventsFileReader_iter tag_event (Blocking [x01]))) =
    Raised (EventReadingError ShortRead)
  ∨ ∃ encoded, no_codec encoded = Raise (EventReadingError ShortRead).
Proof.
  apply (scan_error_sources no_codec tag_event "logs" None None plain_reader
           (Blocking [x01]) (EventReadingError ShortRead)).
  - reflexivity.
  - vm_compute. reflexivity.
Defined.

(** ** Round trip *)

(** X23 is [record_round_trip] above: the record of a payload of at
    least one byte that the parser accepts is read back as that payload
    and yields its event, and the reading ends without error. *)
Lemma record_round_trip_witness :
  EventsFileReader_iter (λ b : bytes, Some b) (Blocking (record [x61; x62; x63])) =
    Reading [[x61; x62; x63]] (Run [[x61; x62; x63]] Exhausted).
Proof.
  apply (record_round_trip (λ b : bytes, Some b) [x61; x62; x63] [x61; x62; x63]).
  - discriminate.
  - vm_compute. reflexivity.
  - reflexivity.
Defined.
